(** * similiar_artists.py: related-artist graph of a listening history

    A shallow embedding of [scripts/similiar_artists.py].  The script is a
    straight-line pipeline: it tallies a listening-history table, picks a
    seed artist, asks the music service for related artists (one seed call
    and four expansion calls), exports the edges, then fetches the
    attributes of every artist id seen and exports the nodes.

    The libraries the script calls are not part of the repository; the
    parts of their behaviour the script relies on are written out here:
    - pandas: [value_counts], [reset_index], label lookup in a column,
      the [DataFrame] constructor on a dict of lists and [to_excel];
    - the service client: [sp.artist], [sp.artist_related_artists];
    - Python: list indexing, [set], [list] of a set, [time.sleep]. *)

From Stdlib Require Import ZArith.
From stdpp Require Import base list strings sorting gmap.

(** ** Failures and observable effects *)

(** The uncaught exceptions of a run, one constructor per raising place. *)
Inductive exn : Type :=
  | SeedOutOfRange (label : nat)
      (* tallyArtists['artist_id'][1]: row label 1 is out of the range of
         the row index (pandas reports it as a KeyError on the label) *)
  | SpotifyException (id : string)
      (* sp.artist(id) or sp.artist_related_artists(id) raised *)
  | TargetIndexError (i : nat)
      (* links_dict['target_id'][i]: list index out of range *)
  | ImageIndexError (id : string)
      (* a['images'][0]: list index out of range *)
  | FrameValueError.
      (* pd.DataFrame(dict): the lists do not all have the same length *)

(** A cell of a table: the script stores strings and integers. *)
Inductive cell : Type :=
  | CStr (s : string)
  | CInt (z : Z).

#[global] Instance exn_eq_dec : EqDecision exn.
Proof. solve_decision. Defined.
#[global] Instance cell_eq_dec : EqDecision cell.
Proof. solve_decision. Defined.

(** What a run does to the outside world, in program order. *)
Inductive event : Type :=
  | CallArtist (id : string)            (* sp.artist(id) *)
  | CallRelated (id : string)           (* sp.artist_related_artists(id) *)
  | Sleep                               (* time.sleep(.5) *)
  | ToExcel (path : string) (sheet : list (list cell)).
                                        (* a spreadsheet written at [path] *)

(** ** The monad of the script: a log of events and an uncaught exception *)

Definition M (A : Type) : Type := list event → (exn + A) * list event.

Definition ret {A} (a : A) : M A := λ log, (inr a, log).
Definition raise {A} (e : exn) : M A := λ log, (inl e, log).
Definition bind {A B} (m : M A) (k : A → M B) : M B :=
  λ log, match m log with
         | (inr a, log') => k a log'
         | (inl e, log') => (inl e, log')
         end.
Definition emit (e : event) : M unit := λ log, (inr tt, log ++ [e]).

Declare Scope prog_scope.
Delimit Scope prog_scope with prog.
Notation "x <- m ;; k" := (bind m (λ x, k))
  (at level 100, m at next level, right associativity) : prog_scope.
Notation "m ;;; k" := (bind m (λ _, k))
  (at level 100, right associativity) : prog_scope.
Open Scope prog_scope.

(** [for x in xs: s = body x s] *)
Fixpoint for_each {A S} (xs : list A) (body : A → S → M S) (s : S) : M S :=
  match xs with
  | [] => ret s
  | x :: xs' => s' <- body x s ;; for_each xs' body s'
  end.

(** ** The input table *)

(** A listening record; the script reads the columns [artist] and
    [artist_id] only. *)
Record listen : Type := Listen { artist : string; artist_id : string }.

Abbreviation dataset := (list listen).

(** ** pandas *)

(** A row of [df.value_counts([artist, artist_id]).reset_index(name='counts')]. *)
Record tally_row : Type :=
  TallyRow { t_artist : string; t_artist_id : string; counts : nat }.

Definition key_of (r : listen) : string * string := (artist r, artist_id r).
Definition row_key (r : tally_row) : string * string := (t_artist r, t_artist_id r).

(** Number of records of the group [k]. *)
Definition group_size (df : dataset) (k : string * string) : nat :=
  length (filter (λ r, key_of r = k) df).

(** The groups of [df.groupby([artist, artist_id])] with their sizes: one
    row per distinct pair.  The order of the groups is immaterial here,
    since [value_counts] sorts them by size next. *)
Definition groupby_size (df : dataset) : list tally_row :=
  (λ k, TallyRow k.1 k.2 (group_size df k)) <$> remove_dups (key_of <$> df).

Definition count_ge (r1 r2 : tally_row) : Prop := counts r2 ≤ counts r1.

(** [Series.sort_values(ascending=False)]: pandas sorts with an unstable
    algorithm, so the order among equal counts is not fixed; all that is
    known is that the result is the same rows, largest count first. *)
Record count_order : Type := CountOrder {
  sort_values : list tally_row → list tally_row;
  sort_values_perm : ∀ l, sort_values l ≡ₚ l;
  sort_values_sorted : ∀ l, StronglySorted count_ge (sort_values l)
}.

(** A table: named columns, all of the same length. *)
Abbreviation frame := (list (string * list cell)).

Definition same_length (cols : list (string * list cell)) : bool :=
  match cols with
  | [] => true
  | c :: cs => forallb (λ c', Nat.eqb (length c'.2) (length c.2)) cs
  end.

(** [pd.DataFrame(d)] on a dict of lists: the keys become the columns, in
    the order of the dict; lists of different lengths are refused. *)
Definition DataFrame (d : list (string * list cell)) : M frame :=
  if same_length d then ret d else raise FrameValueError.

Definition nrows (fr : frame) : nat :=
  match fr with [] => 0 | c :: _ => length c.2 end.

Definition column (fr : frame) (name : string) : list cell :=
  match list_find (λ c, c.1 = name) fr with
  | Some (_, c) => c.2
  | None => []
  end.

(** Row [i] of a table, read across its columns. *)
Definition sheet_row (fr : frame) (i : nat) : list cell :=
  omap (λ c, c.2 !! i) fr.

(** [fr.to_excel(path, index=...)]: one header row with the column names,
    then the rows in table order; with [index = true] every row starts
    with its row number, under an empty header cell. *)
Definition to_excel (fr : frame) (path : string) (index : bool) : M unit :=
  let header := (if index then [CStr ""] else []) ++ (CStr <$> fr.*1) in
  let body :=
    (λ i, (if index then [CInt (Z.of_nat i)] else []) ++ sheet_row fr i)
      <$> seq 0 (nrows fr) in
  emit (ToExcel path (header :: body)).

(** ** The music service *)

(** The artist object of the service, with the fields the script reads:
    [a['name']], [a['id']], [a['followers']['total']], [a['popularity']],
    [a['external_urls']['spotify']] and the [url] of each of [a['images']]. *)
Record artist_obj : Type := ArtistObj {
  art_name : string;
  art_id : string;
  art_followers_total : Z;
  art_popularity : Z;
  art_external_url : string;
  art_images : list string
}.

(** Frozen responses of the service: what each call answers for an id,
    [None] when the call raises.  [related] is the list under the key
    [artists] of the answer of [artist_related_artists]. *)
Record spotify : Type := Spotify {
  sp_artist : string → option artist_obj;
  sp_related : string → option (list artist_obj)
}.

(** ** Python sets *)

(** [list(s)] for a set [s]: every element once, in an order the language
    does not fix (it changes with the hash seed of the process). *)
Record set_order : Type := SetOrder {
  iter : gset string → list string;
  iter_perm : ∀ X, iter X ≡ₚ elements X
}.

(** ** The two dicts of lists *)

Record links_dict : Type := LinksDict {
  source_name : list string;
  source_id : list string;
  target_name : list string;
  target_id : list string
}.

Record points_dict : Type := PointsDict {
  p_id : list string;
  p_name : list string;
  p_followers : list Z;
  p_popularity : list Z;
  p_url : list string;
  p_image : list string
}.

Definition links_empty : links_dict := LinksDict [] [] [] [].
Definition points_empty : points_dict := PointsDict [] [] [] [] [] [].

(** One round of the four appends of the edge loops (lines 33-36, 44-47). *)
Definition append_link (a artist : artist_obj) (d : links_dict) : links_dict :=
  {| source_name := source_name d ++ [art_name a];
     source_id := source_id d ++ [art_id a];
     target_name := target_name d ++ [art_name artist];
     target_id := target_id d ++ [art_id artist] |}.

(** [for artist in ra['artists']: ...] *)
Definition append_links (a : artist_obj) (ra : list artist_obj)
    (d : links_dict) : links_dict :=
  foldl (λ d artist, append_link a artist d) d ra.

(** One round of the six appends of the node loop (lines 64-69), the
    image being [a['images'][0]['url']]. *)
Definition append_point (id : string) (a : artist_obj) (img : string)
    (d : points_dict) : points_dict :=
  {| p_id := p_id d ++ [id];
     p_name := p_name d ++ [art_name a];
     p_followers := p_followers d ++ [art_followers_total a];
     p_popularity := p_popularity d ++ [art_popularity a];
     p_url := p_url d ++ [art_external_url a];
     p_image := p_image d ++ [img] |}.

(** The dicts as [pd.DataFrame] receives them, keys in the order of the
    dict literals (lines 31 and 60). *)
Definition links_columns (d : links_dict) : list (string * list cell) :=
  [ ("source_name", CStr <$> source_name d);
    ("source_id", CStr <$> source_id d);
    ("target_name", CStr <$> target_name d);
    ("target_id", CStr <$> target_id d) ].

Definition points_columns (d : points_dict) : list (string * list cell) :=
  [ ("id", CStr <$> p_id d);
    ("name", CStr <$> p_name d);
    ("followers", CInt <$> p_followers d);
    ("popularity", CInt <$> p_popularity d);
    ("url", CStr <$> p_url d);
    ("image", CStr <$> p_image d) ].

(** ** The script *)

Section Script.
Context (vc : count_order) (so : set_order) (sp : spotify).

(** Line 21. [reset_index] numbers the rows 0, 1, ... in sorted order. *)
Definition tallyArtists (df : dataset) : list tally_row :=
  sort_values vc (groupby_size df).

(** Line 22: the [artist_id] of the row labelled 1. *)
Definition topArtist (df : dataset) : M string :=
  match tallyArtists df !! 1 with
  | Some r => ret (t_artist_id r)
  | None => raise (SeedOutOfRange 1)
  end.

Definition artist_call (id : string) : M artist_obj :=
  emit (CallArtist id) ;;;
  match sp_artist sp id with
  | Some a => ret a
  | None => raise (SpotifyException id)
  end.

Definition related_call (id : string) : M (list artist_obj) :=
  emit (CallRelated id) ;;;
  match sp_related sp id with
  | Some ra => ret ra
  | None => raise (SpotifyException id)
  end.

Definition sleep : M unit := emit Sleep.

(** [links_dict['target_id'][i]] *)
Definition target_id_at (d : links_dict) (i : nat) : M string :=
  match target_id d !! i with
  | Some q => ret q
  | None => raise (TargetIndexError i)
  end.

(** Lines 27-36: the seed call and its edges. *)
Definition seed_links (top : string) : M links_dict :=
  a <- artist_call top ;;
  ra <- related_call top ;;
  ret (append_links a ra links_empty).

(** Lines 40-47: the body of [for i in range(0, 4)]. *)
Definition expand (i : nat) (d : links_dict) : M links_dict :=
  q <- target_id_at d i ;;
  a <- artist_call q ;;
  q' <- target_id_at d i ;;
  ra <- related_call q' ;;
  sleep ;;;
  ret (append_links a ra d).

(** Lines 27-47. *)
Definition collect_links (top : string) : M links_dict :=
  d <- seed_links top ;;
  for_each (seq 0 4) expand d.

(** Line 58. *)
Definition all_artist_ids (d : links_dict) : list string :=
  iter so (list_to_set (source_id d ++ target_id d)).

(** [a['images'][0]['url']] *)
Definition first_image (id : string) (a : artist_obj) : M string :=
  match art_images a !! 0 with
  | Some u => ret u
  | None => raise (ImageIndexError id)
  end.

(** Lines 62-69: the body of [for id in all_artist_ids]. *)
Definition add_point (id : string) (d : points_dict) : M points_dict :=
  sleep ;;;
  a <- artist_call id ;;
  img <- first_image id a ;;
  ret (append_point id a img d).

(** Lines 58-69. *)
Definition collect_points (d : links_dict) : M points_dict :=
  for_each (all_artist_ids d) add_point points_empty.

(** The whole script, returning the two tables it exported. *)
Definition main (df : dataset) : M (frame * frame) :=
  top <- topArtist df ;;
  d <- collect_links top ;;
  links <- DataFrame (links_columns d) ;;
  to_excel links "links.xlsx" false ;;;
  p <- collect_points d ;;
  points <- DataFrame (points_columns p) ;;
  to_excel points "points.xlsx" false ;;;
  ret (links, points).

End Script.


(** ** Vocabulary of the properties *)

(** Number of distinct (artist, artist_id) groups of the input. *)
Definition ngroups (df : dataset) : nat :=
  length (remove_dups (key_of <$> df)).

(** An edge: the four values appended in one round of the edge loops. *)
Record edge : Type := Edge {
  e_source_name : string;
  e_source_id : string;
  e_target_name : string;
  e_target_id : string
}.

Definition mk_edge (a artist : artist_obj) : edge :=
  Edge (art_name a) (art_id a) (art_name artist) (art_id artist).

Definition edge_cells (e : edge) : list cell :=
  [CStr (e_source_name e); CStr (e_source_id e);
   CStr (e_target_name e); CStr (e_target_id e)].

(** The dict of lists that holds the edges [es], in order. *)
Definition links_of (es : list edge) : links_dict :=
  {| source_name := e_source_name <$> es;
     source_id := e_source_id <$> es;
     target_name := e_target_name <$> es;
     target_id := e_target_id <$> es |}.

(** One expansion: the id queried and the two answers of the service. *)
Record call : Type := Call {
  queried : string;
  got_artist : artist_obj;
  got_related : list artist_obj
}.

Definition call_edges (c : call) : list edge :=
  mk_edge (got_artist c) <$> got_related c.

Definition answered (sp : spotify) (c : call) : Prop :=
  sp_artist sp (queried c) = Some (got_artist c) ∧
  sp_related sp (queried c) = Some (got_related c).

(** A node: the id iterated on, the artist fetched for it, its first image. *)
Record node : Type := Node {
  n_id : string;
  n_artist : artist_obj;
  n_image : string
}.

Definition node_cells (n : node) : list cell :=
  [CStr (n_id n); CStr (art_name (n_artist n));
   CInt (art_followers_total (n_artist n)); CInt (art_popularity (n_artist n));
   CStr (art_external_url (n_artist n)); CStr (n_image n)].

Definition points_of (ns : list node) : points_dict :=
  {| p_id := n_id <$> ns;
     p_name := (λ n, art_name (n_artist n)) <$> ns;
     p_followers := (λ n, art_followers_total (n_artist n)) <$> ns;
     p_popularity := (λ n, art_popularity (n_artist n)) <$> ns;
     p_url := (λ n, art_external_url (n_artist n)) <$> ns;
     p_image := n_image <$> ns |}.

(** What one iteration of the node loop needs from the service for [id]. *)
Definition node_of (sp : spotify) (id : string) : option node :=
  match sp_artist sp id with
  | Some a =>
      match art_images a !! 0 with
      | Some img => Some (Node id a img)
      | None => None
      end
  | None => None
  end.

(** The rows of a table, in table order. *)
Definition table_rows (fr : frame) : list (list cell) :=
  sheet_row fr <$> seq 0 (nrows fr).

(** The spreadsheets a run wrote, and the ids it asked relations for. *)
Definition exports (log : list event) : list (string * list (list cell)) :=
  omap (λ e, match e with ToExcel p s => Some (p, s) | _ => None end) log.

Definition related_queries (log : list event) : list string :=
  omap (λ e, match e with CallRelated q => Some q | _ => None end) log.

(** The lists of a dict have one common length. *)
Definition links_wf (d : links_dict) : Prop :=
  length (source_name d) = length (target_id d) ∧
  length (source_id d) = length (target_id d) ∧
  length (target_name d) = length (target_id d).

Definition points_wf (d : points_dict) : Prop :=
  length (p_name d) = length (p_id d) ∧
  length (p_followers d) = length (p_id d) ∧
  length (p_popularity d) = length (p_id d) ∧
  length (p_url d) = length (p_id d) ∧
  length (p_image d) = length (p_id d).

(** The dicts reached by rounds of appends from the empty dict. *)
Inductive links_rounds : links_dict → Prop :=
  | links_rounds_empty : links_rounds links_empty
  | links_rounds_append a artist d :
      links_rounds d → links_rounds (append_link a artist d).

Inductive points_rounds : points_dict → Prop :=
  | points_rounds_empty : points_rounds points_empty
  | points_rounds_append id a img d :
      points_rounds d → points_rounds (append_point id a img d).

(** The events of the seed call and of one expansion. *)
Definition seed_events (c : call) : list event :=
  [CallArtist (queried c); CallRelated (queried c)].

Definition call_events (c : call) : list event :=
  [CallArtist (queried c); CallRelated (queried c); Sleep].

(** [expansions sp es i cs]: [cs] are consecutive expansions, the first
    being number [i] and running when the edges so far are [es]: each one
    queries the target id at its own number in the edges accumulated
    before it, is answered by the service, and adds its edges at the end. *)
Fixpoint expansions (sp : spotify) (es : list edge) (i : nat)
    (cs : list call) : Prop :=
  match cs with
  | [] => True
  | c :: cs' =>
      (e_target_id <$> es) !! i = Some (queried c) ∧
      answered sp c ∧
      expansions sp (es ++ call_edges c) (S i) cs'
  end.

(** The edge stage up to the start of iteration [i] of the expansion
    loop: the seed call and the iterations 0, ..., i-1. *)
Definition links_before (sp : spotify) (top : string) (i : nat) : M links_dict :=
  d <- seed_links sp top ;;
  for_each (seq 0 i) (expand sp) d.

(** The events of one iteration of the node loop, and the failure of an
    iteration that cannot build its row. *)
Definition node_events (id : string) : list event := [Sleep; CallArtist id].

Definition node_error (sp : spotify) (id : string) : exn :=
  match sp_artist sp id with
  | Some _ => ImageIndexError id
  | None => SpotifyException id
  end.

(** The two halves of the script: lines 21-52 and lines 58-74. *)
Definition edge_stage (vc : count_order) (sp : spotify) (df : dataset)
    : M (links_dict * frame) :=
  top <- topArtist vc df ;;
  d <- collect_links sp top ;;
  links <- DataFrame (links_columns d) ;;
  to_excel links "links.xlsx" false ;;;
  ret (d, links).

Definition node_stage (so : set_order) (sp : spotify) (d : links_dict)
    : M frame :=
  p <- collect_points so sp d ;;
  points <- DataFrame (points_columns p) ;;
  to_excel points "points.xlsx" false ;;;
  ret points.

(** The header rows of the two spreadsheets. *)
Definition links_header : list cell :=
  [CStr "source_name"; CStr "source_id"; CStr "target_name"; CStr "target_id"].

Definition points_header : list cell :=
  [CStr "id"; CStr "name"; CStr "followers"; CStr "popularity";
   CStr "url"; CStr "image"].

(** The events of one iteration of the expansion loop, for the id queried. *)
Definition expansion_events (q : string) : list event :=
  [CallArtist q; CallRelated q; Sleep].

(** Counters over a log: pauses, calls of [sp.artist] (all of them, and
    those for one id) and calls of [sp.artist_related_artists]. *)
Definition n_sleeps (log : list event) : nat :=
  sum_list_with (λ e, match e with Sleep => 1 | _ => 0 end) log.

Definition n_artist_calls (log : list event) : nat :=
  sum_list_with (λ e, match e with CallArtist _ => 1 | _ => 0 end) log.

Definition n_related_calls (log : list event) : nat :=
  sum_list_with (λ e, match e with CallRelated _ => 1 | _ => 0 end) log.

Definition n_artist_calls_for (q : string) (log : list event) : nat :=
  sum_list_with
    (λ e, match e with
          | CallArtist id => if decide (id = q) then 1 else 0
          | _ => 0
          end) log.

(** ** Concrete libraries and inputs, to run the script on *)

(** A sort by decreasing count: insertion sort. *)
Fixpoint insert_desc (r : tally_row) (l : list tally_row) : list tally_row :=
  match l with
  | [] => [r]
  | r' :: l' =>
      if Nat.leb (counts r') (counts r) then r :: r' :: l'
      else r' :: insert_desc r l'
  end.

Definition sort_desc (l : list tally_row) : list tally_row :=
  foldr insert_desc [] l.

Lemma insert_desc_perm r l : insert_desc r l ≡ₚ r :: l.
Proof.
  induction l as [|r' l IH]; simpl; [done|].
  destruct (Nat.leb _ _); [done|].
  rewrite IH. apply Permutation_swap.
Qed.

Lemma sort_desc_perm l : sort_desc l ≡ₚ l.
Proof.
  induction l as [|r l IH]; simpl; [done|].
  by rewrite insert_desc_perm, IH.
Qed.

Lemma insert_desc_sorted r l :
  StronglySorted count_ge l → StronglySorted count_ge (insert_desc r l).
Proof.
  induction 1 as [|r' l Hl IH Hall]; simpl.
  - repeat constructor.
  - destruct (Nat.leb (counts r') (counts r)) eqn:Hle.
    + apply Nat.leb_le in Hle.
      constructor; [by constructor|].
      constructor; [done|].
      eapply Forall_impl; [exact Hall|].
      unfold count_ge. intros; lia.
    + apply Nat.leb_gt in Hle.
      constructor; [done|].
      rewrite insert_desc_perm.
      constructor; [unfold count_ge; lia | done].
Qed.

Lemma sort_desc_sorted l : StronglySorted count_ge (sort_desc l).
Proof.
  induction l as [|r l IH]; simpl; [constructor|].
  by apply insert_desc_sorted.
Qed.

Definition insertion_order : count_order :=
  CountOrder sort_desc sort_desc_perm sort_desc_sorted.

(** Two iteration orders of a set: one, and the same reversed. *)
Definition forward_order : set_order :=
  SetOrder elements (λ X, reflexivity (elements X)).

Lemma reverse_elements_perm (X : gset string) : reverse (elements X) ≡ₚ elements X.
Proof. apply reverse_Permutation. Qed.

Definition backward_order : set_order :=
  SetOrder (λ X, reverse (elements X)) reverse_elements_perm.

(** [n] records of one artist. *)
Definition plays (n : nat) (k : string * string) : dataset :=
  replicate n (Listen k.1 k.2).

(** The dataset of the example: A five times, B three times, C once,
    not in order of frequency. *)
Definition sample_df : dataset :=
  plays 1 ("C", "c") ++ plays 3 ("B", "b") ++ plays 5 ("A", "a").

Definition sample_artist (name id : string) (images : list string) : artist_obj :=
  ArtistObj name id 10 50 ("https://open.spotify.com/artist/" +:+ id) images.

(** A service where every artist has one image; [b] is related to
    [x; y; b; w], every other artist to [z]. *)
Definition sample_sp : spotify :=
  Spotify
    (λ id, Some (sample_artist ("name of " +:+ id) id ["image of " +:+ id]))
    (λ id, if String.eqb id "b"
           then Some [sample_artist "X" "x" []; sample_artist "Y" "y" [];
                      sample_artist "B" "b" []; sample_artist "W" "w" []]
           else Some [sample_artist "Z" "z" []]).

(** The same service, where the artist [z] has no image. *)
Definition no_image_sp : spotify :=
  Spotify
    (λ id, if String.eqb id "z" then Some (sample_artist "Z" "z" [])
           else sp_artist sample_sp id)
    (sp_related sample_sp).

(** A service where nobody has related artists. *)
Definition lonely_sp : spotify :=
  Spotify (sp_artist sample_sp) (λ _, Some []).

(** The sample service, where the call [sp.artist] is refused for [y] and
    the call [sp.artist_related_artists] is refused for [w]. *)
Definition refusing_sp : spotify :=
  Spotify
    (λ id, if String.eqb id "y" then None else sp_artist sample_sp id)
    (λ id, if String.eqb id "w" then None else sp_related sample_sp id).

(** The run of the edge stage on the sample service, from the seed [b]. *)
Definition sample_links : links_dict :=
  Eval vm_compute in
    match (collect_links sample_sp "b" []).1 with
    | inr d => d
    | inl _ => links_empty
    end.

Definition sample_links_log : list event :=
  Eval vm_compute in (collect_links sample_sp "b" []).2.

(** * Properties *)

(** ** The monad *)

Lemma bind_run_inr {A B} (m : M A) (k : A → M B) log a log1 :
  m log = (inr a, log1) → bind m k log = k a log1.
Proof. unfold bind. by intros ->. Qed.

Lemma bind_run_inl {A B} (m : M A) (k : A → M B) log e log1 :
  m log = (inl e, log1) → bind m k log = (inl e, log1).
Proof. unfold bind. by intros ->. Qed.

Lemma bind_inr {A B} (m : M A) (k : A → M B) log b log' :
  bind m k log = (inr b, log') ↔
  ∃ a log1, m log = (inr a, log1) ∧ k a log1 = (inr b, log').
Proof.
  unfold bind. destruct (m log) as [[e|a] log1]; split.
  - discriminate.
  - intros (? & ? & [=] & _).
  - eauto.
  - by intros (? & ? & [= <- <-] & ?).
Qed.

Lemma for_each_app {A S} (xs ys : list A) (body : A → S → M S) s log :
  for_each (xs ++ ys) body s log =
  bind (for_each xs body s) (for_each ys body) log.
Proof.
  revert s log. induction xs as [|x xs IH]; intros s log; simpl; [reflexivity|].
  unfold bind. destruct (body x s log) as [[e|s'] log1]; [reflexivity|].
  by rewrite IH.
Qed.

(** ** The tally *)

Lemma key_of_plays n k : key_of <$> plays n k = replicate n k.
Proof. unfold plays. rewrite fmap_replicate. by destruct k. Qed.

Lemma group_size_app df1 df2 k :
  group_size (df1 ++ df2) k = group_size df1 k + group_size df2 k.
Proof. unfold group_size. by rewrite filter_app, length_app. Qed.

Lemma group_size_plays n k k' :
  group_size (plays n k) k' = if decide (k = k') then n else 0.
Proof.
  unfold group_size, plays. induction n as [|n IH]; simpl.
  - by destruct (decide _).
  - destruct k as [x y]. unfold key_of in *. simpl in *.
    destruct (decide ((x, y) = k')) as [Heq|Hne].
    + rewrite filter_cons_True by done. simpl. by rewrite IH.
    + by rewrite filter_cons_False.
Qed.

Lemma group_size_perm df1 df2 k :
  df1 ≡ₚ df2 → group_size df1 k = group_size df2 k.
Proof. unfold group_size. by intros ->. Qed.

Lemma group_size_pos df k : k ∈ key_of <$> df → 0 < group_size df k.
Proof.
  intros (r & -> & Hr)%list_elem_of_fmap. unfold group_size.
  assert (r ∈ filter (λ r', key_of r' = key_of r) df) as Hin
    by by apply list_elem_of_filter.
  destruct (filter _ df); [by apply not_elem_of_nil in Hin | simpl; lia].
Qed.

Lemma row_key_groupby_size df :
  row_key <$> groupby_size df = remove_dups (key_of <$> df).
Proof.
  unfold groupby_size. rewrite <-list_fmap_compose.
  rewrite <-(list_fmap_id (remove_dups _)) at 2.
  apply list_fmap_ext. by intros _ [??] _.
Qed.

Lemma length_tallyArtists vc df : length (tallyArtists vc df) = ngroups df.
Proof.
  unfold tallyArtists, ngroups.
  rewrite (Permutation_length (sort_values_perm vc _)).
  unfold groupby_size. by rewrite length_fmap.
Qed.

Lemma row_key_tallyArtists vc df :
  row_key <$> tallyArtists vc df ≡ₚ remove_dups (key_of <$> df).
Proof.
  unfold tallyArtists. rewrite (sort_values_perm vc).
  by rewrite row_key_groupby_size.
Qed.

Lemma tallyArtists_row vc df r :
  r ∈ tallyArtists vc df →
  counts r = group_size df (row_key r) ∧ row_key r ∈ key_of <$> df.
Proof.
  unfold tallyArtists. rewrite (sort_values_perm vc).
  unfold groupby_size.
  intros ([x y] & -> & Hk)%list_elem_of_fmap.
  rewrite elem_of_remove_dups in Hk. split; [reflexivity | exact Hk].
Qed.

(** With exactly three groups of different sizes the tally is fixed. *)
Lemma tallyArtists_three vc df a b c na nb nc :
  remove_dups (key_of <$> df) ≡ₚ [a; b; c] →
  group_size df a = na → group_size df b = nb → group_size df c = nc →
  nc < nb → nb < na →
  tallyArtists vc df =
    [TallyRow a.1 a.2 na; TallyRow b.1 b.2 nb; TallyRow c.1 c.2 nc].
Proof.
  intros Hgroups Ha Hb Hc Hcb Hba.
  assert (tallyArtists vc df ≡ₚ
    [TallyRow a.1 a.2 na; TallyRow b.1 b.2 nb; TallyRow c.1 c.2 nc]) as Hperm.
  { unfold tallyArtists. rewrite (sort_values_perm vc).
    unfold groupby_size. rewrite Hgroups. simpl. by rewrite Ha, Hb, Hc. }
  apply StronglySorted_unique_strong with (R := count_ge);
    [| apply sort_values_sorted | | exact Hperm].
  - intros x1 x2 Hx1 Hx2 H12 H21. rewrite Hperm in Hx1.
    unfold count_ge in *.
    repeat (apply elem_of_cons in Hx1 as [->|Hx1]);
      [| | |by apply not_elem_of_nil in Hx1];
      repeat (apply elem_of_cons in Hx2 as [->|Hx2]);
      try (by apply not_elem_of_nil in Hx2);
      simpl in *; try done; lia.
  - unfold count_ge.
    repeat (constructor; [repeat constructor; simpl; lia|]). constructor.
Qed.

Lemma groups_of_three df a b c :
  a ≠ b → a ≠ c → b ≠ c →
  df ≡ₚ plays 5 a ++ plays 3 b ++ plays 1 c →
  remove_dups (key_of <$> df) ≡ₚ [a; b; c] ∧
  group_size df a = 5 ∧ group_size df b = 3 ∧ group_size df c = 1.
Proof.
  intros Hab Hac Hbc Hdf. split.
  - apply NoDup_Permutation.
    + apply NoDup_remove_dups.
    + rewrite !NoDup_cons, !elem_of_cons, !elem_of_nil.
      split_and!; [intuition congruence.. | apply NoDup_nil_2].
    + intros k. rewrite elem_of_remove_dups, Hdf, !fmap_app, !key_of_plays.
      simpl. rewrite !elem_of_cons, !elem_of_nil. tauto.
  - rewrite !(group_size_perm _ _ _ Hdf), !group_size_app, !group_size_plays.
    repeat case_decide; simplify_eq; done.
Qed.

(** C1. Seed selection (lines 21-22) tallies the records per (artist,
    artist_id) pair, orders the tally by decreasing count and takes the
    [artist_id] of the row at position 1.  With at least two groups that
    row exists: it is another group than the row at position 0, no more
    frequent than it, and at least as frequent as every later row, where
    the count of a row is the number of records of its group.  For any
    dataset made of 5 plays of A, 3 of B and 1 of C the seed is B. *)
Theorem topArtist_second_most_frequent (vc : count_order) (df : dataset) :
  (2 ≤ ngroups df →
   ∃ r0 r1 rest,
     tallyArtists vc df = r0 :: r1 :: rest ∧
     (∀ log, topArtist vc df log = (inr (t_artist_id r1), log)) ∧
     row_key r0 ≠ row_key r1 ∧
     counts r1 ≤ counts r0 ∧
     Forall (λ r, counts r ≤ counts r1) rest ∧
     Forall (λ r, counts r = group_size df (row_key r) ∧ 0 < counts r)
            (r0 :: r1 :: rest) ∧
     NoDup (row_key <$> r0 :: r1 :: rest) ∧
     (∀ k, k ∈ row_key <$> r0 :: r1 :: rest ↔ k ∈ key_of <$> df)) ∧
  (∀ a b c, a ≠ b → a ≠ c → b ≠ c →
     df ≡ₚ plays 5 a ++ plays 3 b ++ plays 1 c →
     ∀ log, topArtist vc df log = (inr b.2, log)).
Proof.
  split.
  - intros Hn. pose proof (length_tallyArtists vc df) as Hlen.
    pose proof (row_key_tallyArtists vc df) as Hkeys.
    pose proof (sort_values_sorted vc (groupby_size df)) as Hsorted.
    pose proof (tallyArtists_row vc df) as Hrow.
    fold (tallyArtists vc df) in Hsorted.
    destruct (tallyArtists vc df) as [|r0 [|r1 rest]] eqn:Htally;
      simpl in Hlen; [lia..|].
    exists r0, r1, rest.
    assert (NoDup (row_key <$> r0 :: r1 :: rest)) as Hnodup.
    { rewrite Hkeys. apply NoDup_remove_dups. }
    apply StronglySorted_inv in Hsorted as [Hsorted Hr0].
    apply StronglySorted_inv in Hsorted as [_ Hr1].
    split_and!.
    + done.
    + intros log. unfold topArtist. by rewrite Htally.
    + rewrite !fmap_cons in Hnodup.
      apply NoDup_cons in Hnodup as [Hnotin _].
      intros Heq. apply Hnotin. rewrite Heq. left.
    + by apply Forall_cons in Hr0 as [? _].
    + done.
    + apply Forall_forall. intros r Hr. destruct (Hrow r Hr) as [Hc Hk].
      split; [done|]. rewrite Hc. by apply group_size_pos.
    + done.
    + intros k. by rewrite Hkeys, elem_of_remove_dups.
  - intros a b c Hab Hac Hbc Hdf log.
    destruct (groups_of_three df a b c Hab Hac Hbc Hdf)
      as (Hgroups & Ha & Hb & Hc).
    unfold topArtist.
    rewrite (tallyArtists_three vc df a b c 5 3 1) by (done || lia).
    reflexivity.
Qed.

Lemma topArtist_second_most_frequent_witness :
  2 ≤ ngroups sample_df ∧
  topArtist insertion_order sample_df [] = (inr "b", []).
Proof.
  split.
  - vm_compute. lia.
  - apply (proj2 (topArtist_second_most_frequent insertion_order sample_df)
             ("A", "a") ("B", "b") ("C", "c")); try discriminate.
    unfold sample_df.
    rewrite (Permutation_app_comm (plays 1 _)).
    rewrite (Permutation_app_comm (plays 3 _)).
    by rewrite <-(assoc_L (++)).
Defined.

(** C6. With fewer than two distinct (artist, artist_id) groups the row
    labelled 1 does not exist: seed selection fails with the out-of-range
    failure, and so does the whole run, before any call to the service
    and without writing a file; no seed is selected. *)
Theorem topArtist_fails_below_two_groups
    (vc : count_order) (so : set_order) (sp : spotify) (df : dataset) log :
  ngroups df < 2 →
  topArtist vc df log = (inl (SeedOutOfRange 1), log) ∧
  main vc so sp df log = (inl (SeedOutOfRange 1), log).
Proof.
  intros Hn.
  assert (topArtist vc df log = (inl (SeedOutOfRange 1), log)) as Htop.
  { unfold topArtist.
    rewrite (lookup_ge_None_2 (tallyArtists vc df) 1); [done|].
    rewrite length_tallyArtists. lia. }
  split; [done|]. unfold main. by rewrite (bind_run_inl _ _ _ _ _ Htop).
Qed.

Lemma topArtist_fails_below_two_groups_witness :
  ngroups (plays 7 ("A", "a")) < 2 ∧
  main insertion_order forward_order sample_sp (plays 7 ("A", "a")) [] =
    (inl (SeedOutOfRange 1), []).
Proof.
  assert (ngroups (plays 7 ("A", "a")) < 2) as Hn by (vm_compute; lia).
  split; [exact Hn|].
  exact (proj2 (topArtist_fails_below_two_groups insertion_order forward_order
                  sample_sp (plays 7 ("A", "a")) [] Hn)).
Defined.

(** ** The edge stage *)

Section Links.
Context (sp : spotify).

Lemma append_link_of a artist es :
  append_link a artist (links_of es) = links_of (es ++ [mk_edge a artist]).
Proof. unfold append_link, links_of. simpl. by rewrite !fmap_app. Qed.

Lemma append_links_of a ra es :
  append_links a ra (links_of es) = links_of (es ++ (mk_edge a <$> ra)).
Proof.
  unfold append_links. revert es.
  induction ra as [|artist ra IH]; intros es; simpl.
  - by rewrite app_nil_r.
  - rewrite append_link_of, IH. by rewrite <-(assoc_L (++)).
Qed.

Lemma artist_call_run id log :
  artist_call sp id log =
  (match sp_artist sp id with
   | Some a => inr a
   | None => inl (SpotifyException id)
   end, log ++ [CallArtist id]).
Proof. unfold artist_call, bind, emit. by destruct (sp_artist sp id). Qed.

Lemma related_call_run id log :
  related_call sp id log =
  (match sp_related sp id with
   | Some ra => inr ra
   | None => inl (SpotifyException id)
   end, log ++ [CallRelated id]).
Proof. unfold related_call, bind, emit. by destruct (sp_related sp id). Qed.

Lemma seed_links_inr top log d log' :
  seed_links sp top log = (inr d, log') ↔
  ∃ c, queried c = top ∧ answered sp c ∧
       d = links_of (call_edges c) ∧ log' = log ++ seed_events c.
Proof.
  unfold seed_links, bind. rewrite artist_call_run.
  destruct (sp_artist sp top) as [a|] eqn:Ha.
  2:{ split; [discriminate|]. intros (c & <- & [Ha' _] & _). congruence. }
  rewrite related_call_run.
  destruct (sp_related sp top) as [ra|] eqn:Hra.
  2:{ split; [discriminate|]. intros (c & <- & [_ Hra'] & _). congruence. }
  unfold ret. rewrite <-(assoc_L (++)). simpl. split.
  - intros [= <- <-]. exists (Call top a ra). split_and!; try done.
    apply (append_links_of a ra []).
  - intros ([q a' ra'] & Hq & [Ha' Hra'] & -> & ->). simpl in *. subst q.
    rewrite Ha in Ha'. rewrite Hra in Hra'. simplify_eq.
    f_equal. f_equal. apply (append_links_of a' ra' []).
Qed.

Lemma expand_inr i es log d log' :
  expand sp i (links_of es) log = (inr d, log') ↔
  ∃ c, (e_target_id <$> es) !! i = Some (queried c) ∧ answered sp c ∧
       d = links_of (es ++ call_edges c) ∧ log' = log ++ call_events c.
Proof.
  unfold expand, bind, target_id_at. simpl.
  destruct ((e_target_id <$> es) !! i) as [q|] eqn:Hq.
  2:{ split; [discriminate|]. by intros (c & ? & _). }
  unfold ret at 1 2. rewrite artist_call_run.
  destruct (sp_artist sp q) as [a|] eqn:Ha.
  2:{ split; [discriminate|]. intros (c & [= ->] & [Ha' _] & _). congruence. }
  rewrite related_call_run.
  destruct (sp_related sp q) as [ra|] eqn:Hra.
  2:{ split; [discriminate|]. intros (c & [= ->] & [_ Hra'] & _). congruence. }
  unfold sleep, emit, ret. rewrite <-!(assoc_L (++)). simpl.
  rewrite append_links_of. split.
  - intros [= <- <-]. by exists (Call q a ra).
  - intros ([q' a' ra'] & [= ->] & [Ha' Hra'] & -> & ->). simpl in *.
    rewrite Ha in Ha'. rewrite Hra in Hra'. by simplify_eq.
Qed.

Lemma expand_index_error i d log :
  length (target_id d) ≤ i →
  expand sp i d log = (inl (TargetIndexError i), log).
Proof.
  intros Hlen. unfold expand, bind, target_id_at.
  by rewrite (lookup_ge_None_2 _ _ Hlen).
Qed.

Lemma expand_loop_inr n i es log d log' :
  for_each (seq i n) (expand sp) (links_of es) log = (inr d, log') ↔
  ∃ cs, length cs = n ∧ expansions sp es i cs ∧
        d = links_of (es ++ (cs ≫= call_edges)) ∧
        log' = log ++ (cs ≫= call_events).
Proof.
  revert i es log. induction n as [|n IH]; intros i es log; simpl.
  - unfold ret. split.
    + intros [= <- <-]. exists []. simpl. by rewrite !app_nil_r.
    + intros ([|??] & Hlen & _ & -> & ->); [|done].
      simpl. by rewrite !app_nil_r.
  - rewrite bind_inr. split.
    + intros (d1 & log1 & (c & Hq & Hc & -> & ->)%expand_inr & Hrest).
      apply IH in Hrest as (cs & Hlen & Hcs & -> & ->).
      exists (c :: cs). simpl. rewrite Hlen, <-!(assoc_L (++)). done.
    + intros ([|c cs] & Hlen & Hcs & -> & ->); [done|].
      simpl in Hlen, Hcs. destruct Hcs as (Hq & Hc & Hcs).
      exists (links_of (es ++ call_edges c)), (log ++ call_events c). split.
      * apply expand_inr. by exists c.
      * apply IH. exists cs. simpl. rewrite <-!(assoc_L (++)).
        split_and!; [lia|done..].
Qed.

Lemma links_before_inr top n log d log' :
  links_before sp top n log = (inr d, log') ↔
  ∃ c0 cs,
    queried c0 = top ∧ answered sp c0 ∧ length cs = n ∧
    expansions sp (call_edges c0) 0 cs ∧
    d = links_of ((c0 :: cs) ≫= call_edges) ∧
    log' = log ++ seed_events c0 ++ (cs ≫= call_events).
Proof.
  unfold links_before. rewrite bind_inr. split.
  - intros (d0 & log0 & (c0 & Hq & Hc0 & -> & ->)%seed_links_inr & Hloop).
    apply expand_loop_inr in Hloop as (cs & Hlen & Hcs & -> & ->).
    exists c0, cs. by rewrite <-(assoc_L (++)).
  - intros (c0 & cs & Hq & Hc0 & Hlen & Hcs & -> & ->).
    exists (links_of (call_edges c0)), (log ++ seed_events c0). split.
    + apply seed_links_inr. by exists c0.
    + apply expand_loop_inr. exists cs. by rewrite <-(assoc_L (++)).
Qed.

Lemma collect_links_before top : collect_links sp top = links_before sp top 4.
Proof. reflexivity. Qed.

Lemma collect_links_inr top log d log' :
  collect_links sp top log = (inr d, log') ↔
  ∃ c0 cs,
    queried c0 = top ∧ answered sp c0 ∧ length cs = 4 ∧
    expansions sp (call_edges c0) 0 cs ∧
    d = links_of ((c0 :: cs) ≫= call_edges) ∧
    log' = log ++ seed_events c0 ++ (cs ≫= call_events).
Proof. rewrite collect_links_before. apply links_before_inr. Qed.

Lemma expansions_app es i cs1 cs2 :
  expansions sp es i (cs1 ++ cs2) ↔
  expansions sp es i cs1 ∧
  expansions sp (es ++ (cs1 ≫= call_edges)) (i + length cs1) cs2.
Proof.
  revert es i. induction cs1 as [|c cs1 IH]; intros es i; simpl.
  - rewrite app_nil_r, Nat.add_0_r. tauto.
  - rewrite IH, <-(assoc_L (++)), Nat.add_succ_r. simpl. tauto.
Qed.

Lemma related_queries_call_events cs :
  related_queries (cs ≫= call_events) = queried <$> cs.
Proof.
  induction cs as [|c cs IH]; [done|].
  rewrite bind_cons. unfold related_queries in *.
  rewrite omap_app, IH. reflexivity.
Qed.

Lemma exports_call_events cs : exports (cs ≫= call_events) = [].
Proof.
  induction cs as [|c cs IH]; [done|].
  rewrite bind_cons. unfold exports in *. by rewrite omap_app, IH.
Qed.

Lemma expansions_answered es i cs :
  expansions sp es i cs → Forall (answered sp) cs.
Proof.
  revert es i. induction cs as [|c cs IH]; intros es i; simpl; [done|].
  intros (_ & Hc & Hcs). constructor; eauto.
Qed.

Lemma length_call_edges cs :
  length (cs ≫= call_edges) = sum_list_with (λ c, length (got_related c)) cs.
Proof.
  induction cs as [|c cs IH]; [done|].
  rewrite bind_cons, length_app, IH. unfold call_edges.
  by rewrite length_fmap.
Qed.

End Links.

(** ** Tables *)

Lemma same_length_links_of es : same_length (links_columns (links_of es)) = true.
Proof. simpl. rewrite !length_fmap, Nat.eqb_refl. done. Qed.

Lemma same_length_points_of ns : same_length (points_columns (points_of ns)) = true.
Proof. simpl. rewrite !length_fmap, Nat.eqb_refl. done. Qed.

Lemma nrows_links_of es : nrows (links_columns (links_of es)) = length es.
Proof. simpl. by rewrite !length_fmap. Qed.

Lemma nrows_points_of ns : nrows (points_columns (points_of ns)) = length ns.
Proof. simpl. by rewrite !length_fmap. Qed.

Lemma table_rows_links_of es :
  table_rows (links_columns (links_of es)) = edge_cells <$> es.
Proof.
  unfold table_rows. simpl. rewrite !length_fmap.
  apply list_eq. intros i. rewrite !list_lookup_fmap.
  destruct (es !! i) as [e|] eqn:He; simpl.
  - rewrite lookup_seq_lt by (by eapply lookup_lt_Some). simpl.
    unfold sheet_row. simpl. rewrite !list_lookup_fmap, He. done.
  - rewrite lookup_seq_ge by (by apply lookup_ge_None). done.
Qed.

Lemma table_rows_points_of ns :
  table_rows (points_columns (points_of ns)) = node_cells <$> ns.
Proof.
  unfold table_rows. simpl. rewrite !length_fmap.
  apply list_eq. intros i. rewrite !list_lookup_fmap.
  destruct (ns !! i) as [n|] eqn:Hn; simpl.
  - rewrite lookup_seq_lt by (by eapply lookup_lt_Some). simpl.
    unfold sheet_row. simpl. rewrite !list_lookup_fmap, Hn. done.
  - rewrite lookup_seq_ge by (by apply lookup_ge_None). done.
Qed.

Lemma DataFrame_links_of es log :
  DataFrame (links_columns (links_of es)) log =
  (inr (links_columns (links_of es)), log).
Proof. unfold DataFrame. by rewrite same_length_links_of. Qed.

Lemma DataFrame_points_of ns log :
  DataFrame (points_columns (points_of ns)) log =
  (inr (points_columns (points_of ns)), log).
Proof. unfold DataFrame. by rewrite same_length_points_of. Qed.

(** [to_excel] without the index column writes the column names, then
    the rows of the table. *)
Lemma to_excel_no_index fr path log :
  to_excel fr path false log =
  (inr tt, log ++ [ToExcel path ((CStr <$> fr.*1) :: table_rows fr)]).
Proof. reflexivity. Qed.

(** ** The edge table *)

(** C2. When the edge stage succeeds (the seed call and the four
    expansion calls are all answered), it made exactly five calls for
    related artists, the first for the seed, and the edge table has
    exactly one row per related artist of these five answers, in order:
    the row holds the name and id of the artist object fetched for the
    queried id, then the name and id of the related artist.  Its number
    of rows is the total number of related artists of the five answers. *)
Theorem edge_table_one_row_per_related_artist
    (sp : spotify) (top : string) log d log' :
  collect_links sp top log = (inr d, log') →
  ∃ calls evs,
    length calls = 5 ∧
    queried <$> calls !! 0 = Some top ∧
    Forall (answered sp) calls ∧
    log' = log ++ evs ∧
    related_queries evs = queried <$> calls ∧
    DataFrame (links_columns d) log' = (inr (links_columns d), log') ∧
    table_rows (links_columns d) =
      edge_cells <$> (calls ≫= λ c, mk_edge (got_artist c) <$> got_related c) ∧
    nrows (links_columns d) =
      sum_list_with (λ c, length (got_related c)) calls.
Proof.
  intros (c0 & cs & Hq & Hc0 & Hlen & Hcs & -> & ->)%collect_links_inr.
  exists (c0 :: cs), (seed_events c0 ++ (cs ≫= call_events)).
  split_and!.
  - simpl. by rewrite Hlen.
  - simpl. by rewrite Hq.
  - constructor; [done|]. by eapply expansions_answered.
  - done.
  - unfold related_queries. rewrite omap_app.
    fold (related_queries (cs ≫= call_events)).
    by rewrite related_queries_call_events.
  - apply DataFrame_links_of.
  - apply table_rows_links_of.
  - rewrite nrows_links_of. apply length_call_edges.
Qed.

Lemma edge_table_one_row_per_related_artist_witness :
  collect_links sample_sp "b" [] = (inr sample_links, sample_links_log) ∧
  ∃ calls evs,
    length calls = 5 ∧
    queried <$> calls !! 0 = Some "b" ∧
    Forall (answered sample_sp) calls ∧
    sample_links_log = [] ++ evs ∧
    related_queries evs = queried <$> calls ∧
    DataFrame (links_columns sample_links) sample_links_log =
      (inr (links_columns sample_links), sample_links_log) ∧
    table_rows (links_columns sample_links) =
      edge_cells <$> (calls ≫= λ c, mk_edge (got_artist c) <$> got_related c) ∧
    nrows (links_columns sample_links) =
      sum_list_with (λ c, length (got_related c)) calls.
Proof.
  assert (collect_links sample_sp "b" [] = (inr sample_links, sample_links_log))
    as Hrun by (vm_compute; reflexivity).
  split; [exact Hrun|].
  exact (edge_table_one_row_per_related_artist sample_sp "b" [] _ _ Hrun).
Defined.

(** ** The expansion loop, iteration by iteration *)

Lemma bind_assoc {A B C} (m : M A) (k1 : A → M B) (k2 : B → M C) log :
  bind (bind m k1) k2 log = bind m (λ a, bind (k1 a) k2) log.
Proof. unfold bind. by destruct (m log) as [[e|a] log1]. Qed.

Lemma for_each_stops {A S} (xs ys : list A) x (body : A → S → M S)
    s log s' log1 e log2 :
  for_each xs body s log = (inr s', log1) →
  body x s' log1 = (inl e, log2) →
  for_each (xs ++ x :: ys) body s log = (inl e, log2).
Proof.
  intros Hxs Hx. rewrite for_each_app, (bind_run_inr _ _ _ _ _ Hxs).
  simpl. by rewrite (bind_run_inl _ _ _ _ _ Hx).
Qed.

Lemma links_before_S sp top i log :
  links_before sp top (S i) log =
  bind (links_before sp top i) (expand sp i) log.
Proof.
  unfold links_before. rewrite bind_assoc. unfold bind at 1 2.
  destruct (seed_links sp top log) as [[e|d0] log0]; [reflexivity|].
  rewrite seq_S, for_each_app. simpl. unfold bind.
  destruct (for_each (seq 0 i) (expand sp) d0 log0) as [[e|d] log1];
    [reflexivity|].
  by destruct (expand sp i d log1) as [[e|d'] log2].
Qed.

Lemma links_before_stops sp top i n log d logi e log2 :
  i < n →
  links_before sp top i log = (inr d, logi) →
  expand sp i d logi = (inl e, log2) →
  links_before sp top n log = (inl e, log2).
Proof.
  intros Hi Hbefore Hexpand. unfold links_before in *.
  apply bind_inr in Hbefore as (d0 & log0 & Hseed & Hloop).
  rewrite (bind_run_inr _ _ _ _ _ Hseed).
  replace n with (i + S (n - S i)) by lia.
  rewrite seq_app. simpl. by eapply for_each_stops.
Qed.

(** C3. In a run whose edge stage succeeds, relations are asked for
    exactly five times: once for the seed, then once in each of the four
    iterations of the loop.  Iteration [i] (0 to 3) starts from the dict
    [di] built by the seed call and the iterations before it, queries the
    id stored at index [i] of the target ids of [di], and appends the
    edges of the answer to [di], whatever [di] already holds.  No queue
    and no record of the ids already expanded exist: on the sample
    service the id [b] is expanded twice and its four edges are stored
    twice. *)
Theorem expansion_queries_index_i_of_current_edges :
  (∀ (sp : spotify) (top : string) log d log',
     collect_links sp top log = (inr d, log') →
     ∃ qs evs,
       length qs = 4 ∧
       log' = log ++ evs ∧
       related_queries evs = top :: qs ∧
       ∀ i, i < 4 →
         ∃ di logi q a ra,
           qs !! i = Some q ∧
           links_before sp top i log = (inr di, logi) ∧
           target_id di !! i = Some q ∧
           sp_artist sp q = Some a ∧
           sp_related sp q = Some ra ∧
           expand sp i di logi =
             (inr (append_links a ra di),
              logi ++ [CallArtist q; CallRelated q; Sleep]) ∧
           links_before sp top (S i) log =
             (inr (append_links a ra di),
              logi ++ [CallArtist q; CallRelated q; Sleep])) ∧
  (collect_links sample_sp "b" [] = (inr sample_links, sample_links_log) ∧
   related_queries sample_links_log = ["b"; "x"; "y"; "b"; "w"] ∧
   length (table_rows (links_columns sample_links)) = 11 ∧
   take 4 (drop 6 (table_rows (links_columns sample_links))) =
     take 4 (table_rows (links_columns sample_links)) ∧
   ¬ NoDup (table_rows (links_columns sample_links))).
Proof.
  split.
  - intros sp top log d log'
      (c0 & cs & Hq & Hc0 & Hlen & Hcs & -> & ->)%collect_links_inr.
    exists (queried <$> cs), (seed_events c0 ++ (cs ≫= call_events)).
    split_and!.
    + by rewrite length_fmap.
    + done.
    + unfold related_queries. rewrite omap_app.
      fold (related_queries (cs ≫= call_events)).
      rewrite related_queries_call_events. simpl. by rewrite Hq.
    + intros i Hi.
      destruct (lookup_lt_is_Some_2 cs i) as [c Hc]; [lia|].
      assert (length (take i cs) = i) as Htake
        by (rewrite length_take; lia).
      rewrite <-(take_drop_middle cs i c Hc) in Hcs.
      apply expansions_app in Hcs as [Hpre Hcs]. simpl in Hcs.
      rewrite Htake in Hcs. destruct Hcs as (Hqi & [Ha Hra] & _).
      set (es := call_edges c0 ++ (take i cs ≫= call_edges)) in *.
      assert (links_before sp top i log =
              (inr (links_of es), log ++ seed_events c0 ++
                                  (take i cs ≫= call_events))) as Hbefore.
      { apply links_before_inr. exists c0, (take i cs). by split_and!. }
      assert (expand sp i (links_of es)
                (log ++ seed_events c0 ++ (take i cs ≫= call_events)) =
              (inr (append_links (got_artist c) (got_related c) (links_of es)),
               (log ++ seed_events c0 ++ (take i cs ≫= call_events)) ++
               [CallArtist (queried c); CallRelated (queried c); Sleep]))
        as Hexpand.
      { apply expand_inr. exists c. split_and!; try done.
        apply append_links_of. }
      eexists _, _, (queried c), (got_artist c), (got_related c).
      split_and!; [|exact Hbefore|exact Hqi|exact Ha|exact Hra|exact Hexpand|].
      * by rewrite list_lookup_fmap, Hc.
      * by rewrite links_before_S, (bind_run_inr _ _ _ _ _ Hbefore).
  - split_and!; [by vm_compute..|].
    intros Hnodup. vm_compute in Hnodup.
    apply NoDup_cons in Hnodup as [Hnotin _]. apply Hnotin.
    do 5 right. left.
Qed.

Lemma expansion_queries_index_i_of_current_edges_witness :
  collect_links sample_sp "b" [] = (inr sample_links, sample_links_log) ∧
  ∃ qs evs,
    length qs = 4 ∧
    sample_links_log = [] ++ evs ∧
    related_queries evs = "b" :: qs ∧
    ∀ i, i < 4 →
      ∃ di logi q a ra,
        qs !! i = Some q ∧
        links_before sample_sp "b" i [] = (inr di, logi) ∧
        target_id di !! i = Some q ∧
        sp_artist sample_sp q = Some a ∧
        sp_related sample_sp q = Some ra ∧
        expand sample_sp i di logi =
          (inr (append_links a ra di),
           logi ++ [CallArtist q; CallRelated q; Sleep]) ∧
        links_before sample_sp "b" (S i) [] =
          (inr (append_links a ra di),
           logi ++ [CallArtist q; CallRelated q; Sleep]).
Proof.
  assert (collect_links sample_sp "b" [] = (inr sample_links, sample_links_log))
    as Hrun by (vm_compute; reflexivity).
  split; [exact Hrun|].
  exact (proj1 expansion_queries_index_i_of_current_edges
           sample_sp "b" [] _ _ Hrun).
Defined.

(** C9. If, when iteration [i] of the expansion loop starts (the seed
    call and the iterations before it succeeded), the dict holds at most
    [i] edges, then reading [links_dict['target_id'][i]] fails with the
    list index error: the iteration makes no call, the edge stage and
    the whole run end with that error.  It is none of the three failures
    of seed selection, of a call to the service, or of a missing image. *)
Theorem expansion_fails_on_short_edge_list
    (sp : spotify) (top : string) log i d logi :
  i < 4 →
  links_before sp top i log = (inr d, logi) →
  length (target_id d) ≤ i →
  expand sp i d logi = (inl (TargetIndexError i), logi) ∧
  collect_links sp top log = (inl (TargetIndexError i), logi) ∧
  (∀ vc so df,
     topArtist vc df log = (inr top, log) →
     main vc so sp df log = (inl (TargetIndexError i), logi)) ∧
  TargetIndexError i ≠ SeedOutOfRange 1 ∧
  (∀ id, TargetIndexError i ≠ SpotifyException id) ∧
  (∀ id, TargetIndexError i ≠ ImageIndexError id).
Proof.
  intros Hi Hbefore Hlen.
  pose proof (expand_index_error sp i d logi Hlen) as Hexpand.
  assert (collect_links sp top log = (inl (TargetIndexError i), logi))
    as Hlinks.
  { rewrite collect_links_before. by eapply links_before_stops. }
  split_and!; try done.
  intros vc so df Htop. unfold main.
  rewrite (bind_run_inr _ _ _ _ _ Htop).
  by rewrite (bind_run_inl _ _ _ _ _ Hlinks).
Qed.

Lemma expansion_fails_on_short_edge_list_witness :
  0 < 4 ∧
  links_before lonely_sp "b" 0 [] =
    (inr links_empty, [CallArtist "b"; CallRelated "b"]) ∧
  length (target_id links_empty) ≤ 0 ∧
  collect_links lonely_sp "b" [] =
    (inl (TargetIndexError 0), [CallArtist "b"; CallRelated "b"]).
Proof.
  assert (0 < 4) as Hi by lia.
  assert (links_before lonely_sp "b" 0 [] =
          (inr links_empty, [CallArtist "b"; CallRelated "b"])) as Hrun
    by (vm_compute; reflexivity).
  assert (length (target_id links_empty) ≤ 0) as Hlen by (simpl; lia).
  split_and!; [exact Hi | exact Hrun | exact Hlen |].
  exact (proj1 (proj2 (expansion_fails_on_short_edge_list
                         lonely_sp "b" [] 0 _ _ Hi Hrun Hlen))).
Defined.

(** ** The node stage *)

Section Points.
Context (sp : spotify).

Lemma append_point_of id a img ns :
  append_point id a img (points_of ns) = points_of (ns ++ [Node id a img]).
Proof. unfold append_point, points_of. simpl. by rewrite !fmap_app. Qed.

Lemma node_of_id id n : node_of sp id = Some n → n_id n = id.
Proof.
  unfold node_of. destruct (sp_artist sp id) as [a|]; [|done].
  destruct (art_images a !! 0); [|done]. by intros [= <-].
Qed.

Lemma node_of_None id :
  node_of sp id = None ↔
  sp_artist sp id = None ∨
  ∃ a, sp_artist sp id = Some a ∧ art_images a = [].
Proof.
  unfold node_of. destruct (sp_artist sp id) as [a|]; [|by split; eauto].
  destruct (art_images a) as [|u us] eqn:Himg; simpl.
  - split; eauto.
  - split; [done|]. intros [|(a' & [= <-] & ?)]; congruence.
Qed.

Lemma add_point_ok id n ns log :
  node_of sp id = Some n →
  add_point sp id (points_of ns) log =
  (inr (points_of (ns ++ [n])), log ++ node_events id).
Proof.
  unfold node_of, add_point, bind, sleep, emit, first_image.
  rewrite artist_call_run. destruct (sp_artist sp id) as [a|]; [|done].
  destruct (art_images a !! 0) as [img|]; [|done]. intros [= <-].
  unfold ret. by rewrite append_point_of, <-(assoc_L (++)).
Qed.

Lemma add_point_fails id d log :
  node_of sp id = None →
  add_point sp id d log = (inl (node_error sp id), log ++ node_events id).
Proof.
  unfold node_of, node_error, add_point, bind, sleep, emit, first_image.
  rewrite artist_call_run, <-(assoc_L (++)).
  destruct (sp_artist sp id) as [a|]; [|done].
  by destruct (art_images a !! 0) as [img|].
Qed.

Lemma points_loop_ok ids ns log :
  Forall (λ id, is_Some (node_of sp id)) ids →
  for_each ids (add_point sp) (points_of ns) log =
  (inr (points_of (ns ++ omap (node_of sp) ids)), log ++ (ids ≫= node_events)).
Proof.
  intros Hids. revert ns log.
  induction Hids as [|id ids [n Hn] _ IH]; intros ns log.
  - simpl. unfold ret. by rewrite !app_nil_r.
  - cbn [for_each]. rewrite (bind_run_inr _ _ _ _ _ (add_point_ok id n ns log Hn)).
    rewrite IH, bind_cons. cbn [omap list_omap]. rewrite Hn.
    by rewrite <-!(assoc_L (++)).
Qed.

Lemma points_loop_stops pre id post ns log :
  Forall (λ id, is_Some (node_of sp id)) pre →
  node_of sp id = None →
  for_each (pre ++ id :: post) (add_point sp) (points_of ns) log =
  (inl (node_error sp id), log ++ (pre ≫= node_events) ++ node_events id).
Proof.
  intros Hpre Hid. rewrite (assoc_L (++)).
  eapply for_each_stops; [by apply points_loop_ok|].
  by apply add_point_fails.
Qed.

(** Either every id can get its row, or some first id cannot. *)
Lemma first_missing_node ids :
  Forall (λ id, is_Some (node_of sp id)) ids ∨
  ∃ pre id post,
    ids = pre ++ id :: post ∧
    Forall (λ id, is_Some (node_of sp id)) pre ∧
    node_of sp id = None.
Proof.
  induction ids as [|id ids IH]; [by left|].
  destruct (node_of sp id) as [n|] eqn:Hn.
  - destruct IH as [Hall|(pre & id' & post & -> & Hpre & Hid')].
    + left. constructor; [by rewrite Hn|done].
    + right. exists (id :: pre), id', post. split_and!; try done.
      constructor; [by rewrite Hn|done].
  - right. by exists [], id, ids.
Qed.

Lemma points_loop_inr ids log p log' :
  for_each ids (add_point sp) points_empty log = (inr p, log') ↔
  Forall (λ id, is_Some (node_of sp id)) ids ∧
  p = points_of (omap (node_of sp) ids) ∧
  log' = log ++ (ids ≫= node_events).
Proof.
  split.
  - intros Hrun. change points_empty with (points_of []) in Hrun.
    destruct (first_missing_node ids)
      as [Hall|(pre & id & post & -> & Hpre & Hid)].
    + rewrite (points_loop_ok ids [] log Hall) in Hrun. by simplify_eq.
    + by rewrite (points_loop_stops pre id post [] log Hpre Hid) in Hrun.
  - intros (Hall & -> & ->). apply (points_loop_ok ids [] log Hall).
Qed.

Lemma n_id_omap_node_of ids :
  Forall (λ id, is_Some (node_of sp id)) ids →
  n_id <$> omap (node_of sp) ids = ids.
Proof.
  induction 1 as [|id ids [n Hn] _ IH]; [done|].
  cbn [omap list_omap]. rewrite Hn. cbn [fmap list_fmap].
  f_equal; [by apply node_of_id | exact IH].
Qed.

Lemma exports_node_events ids : exports (ids ≫= node_events) = [].
Proof.
  induction ids as [|id ids IH]; [done|].
  rewrite bind_cons. unfold exports in *. by rewrite omap_app, IH.
Qed.

Lemma related_queries_node_events ids : related_queries (ids ≫= node_events) = [].
Proof.
  induction ids as [|id ids IH]; [done|].
  rewrite bind_cons. unfold related_queries in *. by rewrite omap_app, IH.
Qed.

End Points.

(** ** The whole run, stage by stage *)

Section Run.
Context (vc : count_order) (sp : spotify).

Lemma topArtist_run df log :
  topArtist vc df log =
  (match tallyArtists vc df !! 1 with
   | Some r => inr (t_artist_id r)
   | None => inl (SeedOutOfRange 1)
   end, log).
Proof. unfold topArtist. by destruct (tallyArtists vc df !! 1). Qed.

Lemma main_stages so df log :
  main vc so sp df log =
  bind (edge_stage vc sp df)
       (λ dl, points <- node_stage so sp dl.1 ;; ret (dl.2, points)) log.
Proof.
  unfold main, edge_stage, node_stage, bind.
  destruct (topArtist vc df log) as [[e|top] log0]; [reflexivity|].
  destruct (collect_links sp top log0) as [[e|d] log1]; [reflexivity|].
  destruct (DataFrame (links_columns d) log1) as [[e|links] log2];
    [reflexivity|].
  destruct (to_excel links "links.xlsx" false log2) as [[e|[]] log3];
    [reflexivity|]. cbn [fst snd ret].
  destruct (collect_points so sp d log3) as [[e|p] log4]; [reflexivity|].
  destruct (DataFrame (points_columns p) log4) as [[e|points] log5];
    [reflexivity|].
  by destruct (to_excel points "points.xlsx" false log5) as [[e|[]] log6].
Qed.

Lemma edge_stage_inr df log d links log1 :
  edge_stage vc sp df log = (inr (d, links), log1) ↔
  ∃ c0 cs,
    topArtist vc df log = (inr (queried c0), log) ∧
    answered sp c0 ∧ length cs = 4 ∧
    expansions sp (call_edges c0) 0 cs ∧
    d = links_of ((c0 :: cs) ≫= call_edges) ∧
    links = links_columns d ∧
    log1 = log ++ seed_events c0 ++ (cs ≫= call_events) ++
           [ToExcel "links.xlsx"
              (links_header :: (edge_cells <$> ((c0 :: cs) ≫= call_edges)))].
Proof.
  unfold edge_stage. rewrite bind_inr. split.
  - intros (top & log0 & Htop & Hrest).
    assert (log0 = log) as -> by (rewrite topArtist_run in Htop; congruence).
    apply bind_inr in Hrest as (d' & log2 & Hlinks & Hrest).
    apply collect_links_inr in Hlinks
      as (c0 & cs & <- & Hc0 & Hlen & Hcs & -> & ->).
    rewrite (bind_run_inr _ _ _ _ _ (DataFrame_links_of _ _)) in Hrest.
    unfold bind in Hrest. rewrite to_excel_no_index in Hrest.
    rewrite table_rows_links_of in Hrest. unfold ret in Hrest.
    injection Hrest as <- <- <-.
    exists c0, cs. split_and!; try done. by rewrite <-!(assoc_L (++)).
  - intros (c0 & cs & Htop & Hc0 & Hlen & Hcs & -> & -> & ->).
    exists (queried c0), log. split; [done|].
    apply bind_inr.
    exists (links_of ((c0 :: cs) ≫= call_edges)),
           (log ++ seed_events c0 ++ (cs ≫= call_events)).
    split; [apply collect_links_inr; by exists c0, cs|].
    rewrite (bind_run_inr _ _ _ _ _ (DataFrame_links_of _ _)).
    unfold bind. rewrite to_excel_no_index, table_rows_links_of.
    unfold ret. by rewrite <-!(assoc_L (++)).
Qed.

Lemma node_stage_inr so d log points log' :
  node_stage so sp d log = (inr points, log') ↔
  Forall (λ id, is_Some (node_of sp id)) (all_artist_ids so d) ∧
  points = points_columns (points_of (omap (node_of sp) (all_artist_ids so d))) ∧
  log' = log ++ (all_artist_ids so d ≫= node_events) ++
         [ToExcel "points.xlsx"
            (points_header ::
             (node_cells <$> omap (node_of sp) (all_artist_ids so d)))].
Proof.
  unfold node_stage, collect_points. rewrite bind_inr. split.
  - intros (p & log1 & (Hall & -> & ->)%points_loop_inr & Hrest).
    rewrite (bind_run_inr _ _ _ _ _ (DataFrame_points_of _ _)) in Hrest.
    unfold bind in Hrest. rewrite to_excel_no_index in Hrest.
    rewrite table_rows_points_of in Hrest. unfold ret in Hrest.
    injection Hrest as <- <-. split_and!; try done.
    by rewrite <-!(assoc_L (++)).
  - intros (Hall & -> & ->).
    eexists _, _. split; [by apply points_loop_inr|].
    rewrite (bind_run_inr _ _ _ _ _ (DataFrame_points_of _ _)).
    unfold bind. rewrite to_excel_no_index, table_rows_points_of.
    unfold ret. by rewrite <-!(assoc_L (++)).
Qed.

Lemma node_stage_stops so d log pre id post :
  all_artist_ids so d = pre ++ id :: post →
  Forall (λ id, is_Some (node_of sp id)) pre →
  node_of sp id = None →
  node_stage so sp d log =
  (inl (node_error sp id), log ++ (pre ≫= node_events) ++ node_events id).
Proof.
  intros Hids Hpre Hid. unfold node_stage, collect_points.
  apply bind_run_inl. rewrite Hids.
  by apply (points_loop_stops sp pre id post []).
Qed.

Lemma main_inr so df log links points log' :
  main vc so sp df log = (inr (links, points), log') ↔
  ∃ d log1,
    edge_stage vc sp df log = (inr (d, links), log1) ∧
    node_stage so sp d log1 = (inr points, log').
Proof.
  rewrite main_stages, bind_inr. split.
  - intros ([d links'] & log1 & Hedge & Hnode). simpl in Hnode.
    apply bind_inr in Hnode as (points' & log2 & Hnode & [= <- <- <-]).
    eauto.
  - intros (d & log1 & Hedge & Hnode). exists (d, links), log1.
    split; [done|]. simpl. by rewrite (bind_run_inr _ _ _ _ _ Hnode).
Qed.

End Run.

(** ** The node table *)

Lemma all_artist_ids_NoDup so d : NoDup (all_artist_ids so d).
Proof. unfold all_artist_ids. rewrite iter_perm. apply NoDup_elements. Qed.

Lemma all_artist_ids_elem so d x :
  x ∈ all_artist_ids so d ↔ x ∈ source_id d ∨ x ∈ target_id d.
Proof.
  unfold all_artist_ids.
  by rewrite iter_perm, elem_of_elements, elem_of_list_to_set, elem_of_app.
Qed.

Lemma all_artist_ids_perm so1 so2 d :
  all_artist_ids so1 d ≡ₚ all_artist_ids so2 d.
Proof. unfold all_artist_ids. by rewrite !iter_perm. Qed.

(** C4. In a run that completes, the ids of the node table are the ids
    iterated on, each once: as a set they are the union of the
    [source_id] and [target_id] values of the edge table, no id is
    repeated, and every id of the node table is the source or the target
    of some edge.  The node table has one row per such id. *)
Theorem node_ids_are_the_edge_ids
    (vc : count_order) (so : set_order) (sp : spotify) (df : dataset)
    log links points log' :
  main vc so sp df log = (inr (links, points), log') →
  ∃ ids src tgt,
    column points "id" = CStr <$> ids ∧
    column links "source_id" = CStr <$> src ∧
    column links "target_id" = CStr <$> tgt ∧
    NoDup ids ∧
    list_to_set ids =@{gset string} list_to_set src ∪ list_to_set tgt ∧
    (∀ x, x ∈ ids → x ∈ src ∨ x ∈ tgt) ∧
    length (table_rows points) = length ids.
Proof.
  intros (d & log1 & Hedge & Hnode)%main_inr.
  apply edge_stage_inr in Hedge as (c0 & cs & _ & _ & _ & _ & Hd & -> & _).
  apply node_stage_inr in Hnode as (Hall & -> & _).
  exists (all_artist_ids so d), (source_id d), (target_id d).
  split_and!.
  - change (CStr <$> (n_id <$> omap (node_of sp) (all_artist_ids so d)) =
            CStr <$> all_artist_ids so d).
    by rewrite n_id_omap_node_of.
  - reflexivity.
  - reflexivity.
  - apply all_artist_ids_NoDup.
  - apply set_eq. intros x.
    by rewrite elem_of_union, !elem_of_list_to_set, all_artist_ids_elem.
  - intros x. by rewrite all_artist_ids_elem.
  - rewrite table_rows_points_of, length_fmap.
    by rewrite <-(length_fmap n_id), n_id_omap_node_of.
Qed.

Lemma node_ids_are_the_edge_ids_witness :
  ∃ links points log',
    main insertion_order forward_order sample_sp sample_df [] =
      (inr (links, points), log') ∧
    ∃ ids src tgt,
      column points "id" = CStr <$> ids ∧
      column links "source_id" = CStr <$> src ∧
      column links "target_id" = CStr <$> tgt ∧
      NoDup ids ∧
      list_to_set ids =@{gset string} list_to_set src ∪ list_to_set tgt ∧
      (∀ x, x ∈ ids → x ∈ src ∨ x ∈ tgt) ∧
      length (table_rows points) = length ids.
Proof.
  eexists _, _, _.
  assert (main insertion_order forward_order sample_sp sample_df [] =
          (inr _, _)) as Hrun by (vm_compute; reflexivity).
  split; [exact Hrun|].
  exact (node_ids_are_the_edge_ids insertion_order forward_order sample_sp
           sample_df [] _ _ _ Hrun).
Defined.

(** C5. When node collection meets an id whose artist object has an empty
    list of images, the iteration fails at [a['images'][0]] with the list
    index error, whatever the dict holds, and no row is added for it.
    The run then ends with a failure and writes no node table; the
    failure is that image error of [id] when every id iterated on before
    it got its row. *)
Theorem empty_images_fail_the_run
    (vc : count_order) (so : set_order) (sp : spotify) (df : dataset)
    log d links log1 id a :
  edge_stage vc sp df log = (inr (d, links), log1) →
  id ∈ all_artist_ids so d →
  sp_artist sp id = Some a →
  art_images a = [] →
  (∀ p logx,
     add_point sp id p logx =
       (inl (ImageIndexError id), logx ++ [Sleep; CallArtist id])) ∧
  (∃ e log',
     main vc so sp df log = (inl e, log') ∧ exports log' = exports log1) ∧
  (∀ pre post,
     all_artist_ids so d = pre ++ id :: post →
     Forall (λ x, is_Some (node_of sp x)) pre →
     main vc so sp df log =
       (inl (ImageIndexError id),
        log1 ++ (pre ≫= node_events) ++ node_events id)).
Proof.
  intros Hedge Hin Ha Himg.
  assert (node_of sp id = None) as Hnone
    by (apply node_of_None; eauto).
  assert (node_error sp id = ImageIndexError id) as Herr
    by (unfold node_error; by rewrite Ha).
  assert (∀ pre id' post,
    all_artist_ids so d = pre ++ id' :: post →
    Forall (λ x, is_Some (node_of sp x)) pre →
    node_of sp id' = None →
    main vc so sp df log =
      (inl (node_error sp id'),
       log1 ++ (pre ≫= node_events) ++ node_events id')) as Hstop.
  { intros pre id' post Hids Hpre Hid'.
    rewrite main_stages, (bind_run_inr _ _ _ _ _ Hedge). simpl.
    apply bind_run_inl. by eapply node_stage_stops. }
  split_and!.
  - intros p logx. rewrite <-Herr. by apply add_point_fails.
  - destruct (first_missing_node sp (all_artist_ids so d))
      as [Hall|(pre & id' & post & Hids & Hpre & Hid')].
    + rewrite Forall_forall in Hall. destruct (Hall id Hin) as [n Hn].
      congruence.
    + eexists _, _. split; [by eapply Hstop|].
      unfold exports. rewrite !omap_app.
      fold (exports (pre ≫= node_events)).
      by rewrite exports_node_events, app_nil_r.
  - intros pre post Hids Hpre. rewrite <-Herr. by eapply Hstop.
Qed.

Lemma empty_images_fail_the_run_witness :
  ∃ d links log1,
    edge_stage insertion_order no_image_sp sample_df [] =
      (inr (d, links), log1) ∧
    "z" ∈ all_artist_ids forward_order d ∧
    sp_artist no_image_sp "z" = Some (sample_artist "Z" "z" []) ∧
    art_images (sample_artist "Z" "z" []) = [] ∧
    ∃ e log',
      main insertion_order forward_order no_image_sp sample_df [] =
        (inl e, log') ∧
      exports log' = exports log1.
Proof.
  eexists _, _, _.
  assert (edge_stage insertion_order no_image_sp sample_df [] =
          (inr (_, _), _)) as Hedge by (vm_compute; reflexivity).
  split; [exact Hedge|].
  match type of Hedge with
  | _ = (inr (?d, _), _) =>
      assert ("z" ∈ all_artist_ids forward_order d) as Hin
        by (apply (bool_decide_eq_true_1
                     ("z" ∈ all_artist_ids forward_order d));
            vm_compute; reflexivity)
  end.
  assert (sp_artist no_image_sp "z" = Some (sample_artist "Z" "z" [])) as Ha
    by reflexivity.
  assert (art_images (sample_artist "Z" "z" []) = []) as Himg by reflexivity.
  split_and!; [exact Hin | exact Ha | exact Himg |].
  exact (proj1 (proj2 (empty_images_fail_the_run insertion_order forward_order
                         no_image_sp sample_df [] _ _ _ "z" _
                         Hedge Hin Ha Himg))).
Defined.

(** ** The exports *)

Lemma exports_app l1 l2 : exports (l1 ++ l2) = exports l1 ++ exports l2.
Proof. apply omap_app. Qed.

Lemma related_queries_app l1 l2 :
  related_queries (l1 ++ l2) = related_queries l1 ++ related_queries l2.
Proof. apply omap_app. Qed.

(** C7. A run that completes writes two spreadsheets, the edges first.
    [links.xlsx] has the header source_name, source_id, target_name,
    target_id and then one row of these four cells per edge, in the order
    the edges were discovered (the related artists of the first call,
    then of the second, ...), repeated edges included; [points.xlsx] has
    the header id, name, followers, popularity, url, image and one row of
    these six cells per node.  No row starts with a row number. *)
Theorem exports_columns_and_order
    (vc : count_order) (so : set_order) (sp : spotify) (df : dataset)
    log links points log' :
  main vc so sp df log = (inr (links, points), log') →
  ∃ calls nodes evs,
    log' = log ++ evs ∧
    related_queries evs = queried <$> calls ∧
    Forall (answered sp) calls ∧
    Forall (λ n, node_of sp (n_id n) = Some n) nodes ∧
    exports evs =
      [("links.xlsx",
        [CStr "source_name"; CStr "source_id";
         CStr "target_name"; CStr "target_id"]
        :: (edge_cells <$>
              (calls ≫= λ c, mk_edge (got_artist c) <$> got_related c)));
       ("points.xlsx",
        [CStr "id"; CStr "name"; CStr "followers"; CStr "popularity";
         CStr "url"; CStr "image"]
        :: (node_cells <$> nodes))] ∧
    links.*1 = ["source_name"; "source_id"; "target_name"; "target_id"] ∧
    points.*1 = ["id"; "name"; "followers"; "popularity"; "url"; "image"] ∧
    table_rows links =
      edge_cells <$> (calls ≫= λ c, mk_edge (got_artist c) <$> got_related c) ∧
    table_rows points = node_cells <$> nodes ∧
    Forall (λ row, length row = 4) (table_rows links) ∧
    Forall (λ row, length row = 6) (table_rows points).
Proof.
  intros (d & log1 & Hedge & Hnode)%main_inr.
  apply edge_stage_inr in Hedge
    as (c0 & cs & _ & Hc0 & Hlen & Hcs & -> & -> & ->).
  apply node_stage_inr in Hnode as (Hall & -> & ->).
  set (es := (c0 :: cs) ≫= call_edges).
  set (ids := all_artist_ids so (links_of es)).
  exists (c0 :: cs), (omap (node_of sp) ids). eexists.
  split_and!.
  - rewrite <-!(assoc_L (++)). reflexivity.
  - rewrite !related_queries_app, related_queries_call_events,
      related_queries_node_events. simpl. by rewrite app_nil_r.
  - constructor; [done|]. by eapply expansions_answered.
  - apply Forall_forall. intros n (id & _ & Hn)%list_elem_of_omap.
    by rewrite (node_of_id sp id n Hn).
  - rewrite !exports_app, exports_call_events, exports_node_events.
    reflexivity.
  - reflexivity.
  - reflexivity.
  - apply table_rows_links_of.
  - apply table_rows_points_of.
  - rewrite table_rows_links_of. apply Forall_fmap, Forall_true. done.
  - rewrite table_rows_points_of. apply Forall_fmap, Forall_true. done.
Qed.

Lemma exports_columns_and_order_witness :
  ∃ links points log',
    main insertion_order forward_order sample_sp sample_df [] =
      (inr (links, points), log') ∧
    Forall (λ row, length row = 4) (table_rows links) ∧
    Forall (λ row, length row = 6) (table_rows points) ∧
    exports log' =
      [("links.xlsx",
        [CStr "source_name"; CStr "source_id";
         CStr "target_name"; CStr "target_id"] :: table_rows links);
       ("points.xlsx",
        [CStr "id"; CStr "name"; CStr "followers"; CStr "popularity";
         CStr "url"; CStr "image"] :: table_rows points)].
Proof.
  eexists _, _, _.
  assert (main insertion_order forward_order sample_sp sample_df [] =
          (inr _, _)) as Hrun by (vm_compute; reflexivity).
  split; [exact Hrun|].
  destruct (exports_columns_and_order insertion_order forward_order sample_sp
              sample_df [] _ _ _ Hrun)
    as (calls & nodes & evs & Hlog & _ & _ & _ & Hexp & _ & _ & Hl & Hp & H4 & H6).
  split_and!; [exact H4 | exact H6 |].
  rewrite Hlog, Hl, Hp. exact Hexp.
Defined.

(** ** Two runs on the same input and the same answers *)

Section Failures.
Context (vc : count_order) (sp : spotify).

Lemma main_edge_fails so df log e log1 :
  edge_stage vc sp df log = (inl e, log1) →
  main vc so sp df log = (inl e, log1).
Proof. intros Hedge. rewrite main_stages. by apply bind_run_inl. Qed.

Lemma main_node_stops so df log d links log1 pre id post :
  edge_stage vc sp df log = (inr (d, links), log1) →
  all_artist_ids so d = pre ++ id :: post →
  Forall (λ x, is_Some (node_of sp x)) pre →
  node_of sp id = None →
  main vc so sp df log =
    (inl (node_error sp id), log1 ++ (pre ≫= node_events) ++ node_events id).
Proof.
  intros Hedge Hids Hpre Hid.
  rewrite main_stages, (bind_run_inr _ _ _ _ _ Hedge). simpl.
  apply bind_run_inl. by eapply node_stage_stops.
Qed.

Lemma main_node_ok so df log d links log1 :
  edge_stage vc sp df log = (inr (d, links), log1) →
  Forall (λ x, is_Some (node_of sp x)) (all_artist_ids so d) →
  main vc so sp df log =
    (inr (links,
          points_columns (points_of (omap (node_of sp) (all_artist_ids so d)))),
     log1 ++ (all_artist_ids so d ≫= node_events) ++
     [ToExcel "points.xlsx"
        (points_header ::
         (node_cells <$> omap (node_of sp) (all_artist_ids so d)))]).
Proof.
  intros Hedge Hall. apply main_inr. exists d, log1. split; [done|].
  by apply node_stage_inr.
Qed.

(** A failed run failed in the edge stage, or at the first id of the node
    loop that cannot get its row. *)
Lemma main_inl so df log e log' :
  main vc so sp df log = (inl e, log') →
  edge_stage vc sp df log = (inl e, log') ∨
  ∃ d links log1 pre id post,
    edge_stage vc sp df log = (inr (d, links), log1) ∧
    all_artist_ids so d = pre ++ id :: post ∧
    Forall (λ x, is_Some (node_of sp x)) pre ∧
    node_of sp id = None ∧
    e = node_error sp id ∧
    log' = log1 ++ (pre ≫= node_events) ++ node_events id.
Proof.
  intros Hmain.
  destruct (edge_stage vc sp df log) as [[e'|[d links]] log1] eqn:Hedge.
  - left. rewrite (main_edge_fails so df log e' log1 Hedge) in Hmain.
    by simplify_eq.
  - right.
    destruct (first_missing_node sp (all_artist_ids so d))
      as [Hall|(pre & id & post & Hids & Hpre & Hid)].
    + by rewrite (main_node_ok so df log d links log1 Hedge Hall) in Hmain.
    + rewrite (main_node_stops so df log d links log1 pre id post
                 Hedge Hids Hpre Hid) in Hmain.
      simplify_eq. by exists d, links, log1, pre, id, post.
Qed.

Lemma exports_node_prefix log1 pre id :
  exports (log1 ++ (pre ≫= node_events) ++ node_events id) = exports log1.
Proof.
  rewrite !exports_app, exports_node_events. simpl. by rewrite app_nil_r.
Qed.

End Failures.

(** C8. Two runs on the same dataset and the same frozen answers of the
    service can differ only by the order in which the set of ids is
    iterated.  If one completes, so does the other: with the same edge
    table, the same [links.xlsx], the same columns of the node table,
    and node rows that are a permutation of the rows of the first.  If
    one fails, so does the other, having written the same files.  The
    node rows can indeed come in another order: on the sample input the
    two iteration orders give different node tables. *)
Theorem reruns_agree_up_to_node_order
    (vc : count_order) (sp : spotify) (df : dataset) log
    (so1 so2 : set_order) :
  (∀ links points1 log1,
     main vc so1 sp df log = (inr (links, points1), log1) →
     ∃ points2 log2 sheet,
       main vc so2 sp df log = (inr (links, points2), log2) ∧
       points2.*1 = points1.*1 ∧
       table_rows points2 ≡ₚ table_rows points1 ∧
       exports log1 =
         exports log ++
         [("links.xlsx", sheet);
          ("points.xlsx", (CStr <$> points1.*1) :: table_rows points1)] ∧
       exports log2 =
         exports log ++
         [("links.xlsx", sheet);
          ("points.xlsx", (CStr <$> points2.*1) :: table_rows points2)]) ∧
  (∀ e log1,
     main vc so1 sp df log = (inl e, log1) →
     ∃ e' log2,
       main vc so2 sp df log = (inl e', log2) ∧
       exports log2 = exports log1) ∧
  (∃ links points1 points2 log1 log2,
     main insertion_order forward_order sample_sp sample_df [] =
       (inr (links, points1), log1) ∧
     main insertion_order backward_order sample_sp sample_df [] =
       (inr (links, points2), log2) ∧
     table_rows points1 ≠ table_rows points2).
Proof.
  split_and!.
  - intros links points1 log1 (d & logE & Hedge & Hnode)%main_inr.
    apply node_stage_inr in Hnode as (Hall & -> & ->).
    pose proof (all_artist_ids_perm so2 so1 d) as Hperm.
    assert (Forall (λ x, is_Some (node_of sp x)) (all_artist_ids so2 d))
      as Hall2 by by rewrite Hperm.
    pose proof Hedge as Hedge'.
    apply edge_stage_inr in Hedge'
      as (c0 & cs & _ & _ & _ & _ & _ & _ & HlogE).
    eexists _, _, _. split_and!.
    + by apply main_node_ok.
    + reflexivity.
    + rewrite !table_rows_points_of. by rewrite Hperm.
    + rewrite !exports_app, exports_node_events, table_rows_points_of.
      rewrite HlogE, !exports_app, exports_call_events. simpl.
      rewrite <-!(assoc_L (++)). reflexivity.
    + rewrite !exports_app, exports_node_events, table_rows_points_of.
      rewrite HlogE, !exports_app, exports_call_events. simpl.
      rewrite <-!(assoc_L (++)). reflexivity.
  - intros e log1 [Hedge|(d & links & logE & pre & id & post & Hedge & Hids
                          & Hpre & Hid & -> & ->)]%main_inl.
    + exists e, log1. split; [by apply main_edge_fails|done].
    + destruct (first_missing_node sp (all_artist_ids so2 d))
        as [Hall|(pre2 & id2 & post2 & Hids2 & Hpre2 & Hid2)].
      * rewrite (all_artist_ids_perm so2 so1 d), Hids in Hall.
        apply Forall_app in Hall as [_ [[n Hn] _]%Forall_cons]. congruence.
      * eexists _, _. split; [by eapply main_node_stops|].
        by rewrite !exports_node_prefix.
  - eexists _, _, _, _, _. split_and!.
    + vm_compute. reflexivity.
    + vm_compute. reflexivity.
    + vm_compute. discriminate.
Qed.

Lemma reruns_agree_up_to_node_order_witness :
  ∃ links points1 log1,
    main insertion_order forward_order sample_sp sample_df [] =
      (inr (links, points1), log1) ∧
    ∃ points2 log2,
      main insertion_order backward_order sample_sp sample_df [] =
        (inr (links, points2), log2) ∧
      points2.*1 = points1.*1 ∧
      table_rows points2 ≡ₚ table_rows points1.
Proof.
  eexists _, _, _.
  assert (main insertion_order forward_order sample_sp sample_df [] =
          (inr _, _)) as Hrun by (vm_compute; reflexivity).
  split; [exact Hrun|].
  destruct (proj1 (reruns_agree_up_to_node_order insertion_order sample_sp
                     sample_df [] forward_order backward_order) _ _ _ Hrun)
    as (points2 & log2 & sheet & Hrun2 & Hcols & Hrows & _).
  exists points2, log2. split_and!; [exact Hrun2 | exact Hcols | exact Hrows].
Defined.

(** ** The lists of a dict grow together *)

Lemma links_wf_empty : links_wf links_empty.
Proof. by repeat split. Qed.

Lemma links_wf_append a artist d :
  links_wf d → links_wf (append_link a artist d).
Proof.
  unfold links_wf, append_link. simpl. rewrite !length_app. simpl. lia.
Qed.

Lemma points_wf_empty : points_wf points_empty.
Proof. by repeat split. Qed.

Lemma points_wf_append id a img d :
  points_wf d → points_wf (append_point id a img d).
Proof.
  unfold points_wf, append_point. simpl. rewrite !length_app. simpl. lia.
Qed.

Lemma links_rounds_wf d : links_rounds d → links_wf d.
Proof.
  induction 1; [apply links_wf_empty | by apply links_wf_append].
Qed.

Lemma points_rounds_wf d : points_rounds d → points_wf d.
Proof.
  induction 1; [apply points_wf_empty | by apply points_wf_append].
Qed.

Lemma append_links_rounds a ra d :
  links_rounds d → links_rounds (append_links a ra d).
Proof.
  unfold append_links. revert d.
  induction ra as [|artist ra IH]; intros d Hd; simpl; [done|].
  apply IH. by constructor.
Qed.

Lemma links_of_rounds es : links_rounds (links_of es).
Proof.
  induction es as [|[sn sid tn tid] es IH] using rev_ind; [constructor|].
  replace (links_of (es ++ [Edge sn sid tn tid]))
    with (append_link (ArtistObj sn sid 0 0 "" []) (ArtistObj tn tid 0 0 "" [])
            (links_of es))
    by (by rewrite append_link_of).
  by constructor.
Qed.

Lemma points_of_rounds ns : points_rounds (points_of ns).
Proof.
  induction ns as [|[id a img] ns IH] using rev_ind; [constructor|].
  rewrite <-append_point_of. by constructor.
Qed.

Lemma links_wf_same_length d :
  links_wf d ↔ same_length (links_columns d) = true.
Proof.
  unfold links_wf. simpl.
  rewrite !length_fmap, !andb_true_iff, !Nat.eqb_eq. lia.
Qed.

Lemma points_wf_same_length d :
  points_wf d ↔ same_length (points_columns d) = true.
Proof.
  unfold points_wf. simpl.
  rewrite !length_fmap, !andb_true_iff, !Nat.eqb_eq. lia.
Qed.

Lemma DataFrame_inr cols :
  same_length cols = true ↔ ∀ log, DataFrame cols log = (inr cols, log).
Proof.
  unfold DataFrame. split.
  - by intros ->.
  - intros Hrun. specialize (Hrun []).
    by destruct (same_length cols).
Qed.

(** C10. The four lists of the edge dict have one length after every
    round of appends: this holds for the empty dict, each round keeps it,
    so it holds in every state of the seed loop and of the inner loop of
    every expansion.  The six lists of the node dict likewise have one
    length after every iteration of the node loop.  Having one length is
    exactly what [pd.DataFrame] needs to build each table. *)
Theorem dict_lists_keep_one_length :
  (links_wf links_empty ∧
   ∀ a artist d, links_wf d → links_wf (append_link a artist d)) ∧
  (points_wf points_empty ∧
   ∀ id a img d, points_wf d → points_wf (append_point id a img d)) ∧
  (∀ a ra n, links_wf (append_links a (take n ra) links_empty)) ∧
  (∀ sp top i log di logi,
     links_before sp top i log = (inr di, logi) →
     ∀ a ra n, links_wf (append_links a (take n ra) di)) ∧
  (∀ so sp d n log p log',
     for_each (take n (all_artist_ids so d)) (add_point sp) points_empty log =
       (inr p, log') →
     points_wf p) ∧
  (∀ d, links_wf d ↔
        ∀ log, DataFrame (links_columns d) log = (inr (links_columns d), log)) ∧
  (∀ p, points_wf p ↔
        ∀ log, DataFrame (points_columns p) log = (inr (points_columns p), log)).
Proof.
  split_and!.
  - apply links_wf_empty.
  - apply links_wf_append.
  - apply points_wf_empty.
  - apply points_wf_append.
  - intros a ra n. apply links_rounds_wf, append_links_rounds. constructor.
  - intros sp top i log di logi
      (c0 & cs & _ & _ & _ & _ & -> & _)%links_before_inr a ra n.
    apply links_rounds_wf, append_links_rounds, links_of_rounds.
  - intros so sp d n log p log' (_ & -> & _)%points_loop_inr.
    apply points_rounds_wf, points_of_rounds.
  - intros d. by rewrite links_wf_same_length, DataFrame_inr.
  - intros p. by rewrite points_wf_same_length, DataFrame_inr.
Qed.

Lemma dict_lists_keep_one_length_witness :
  links_before sample_sp "b" 4 [] = (inr sample_links, sample_links_log) ∧
  links_wf sample_links ∧
  ∀ log, DataFrame (links_columns sample_links) log =
         (inr (links_columns sample_links), log).
Proof.
  assert (links_before sample_sp "b" 4 [] = (inr sample_links, sample_links_log))
    as Hrun by (vm_compute; reflexivity).
  destruct dict_lists_keep_one_length as (_ & _ & _ & Hstate & _ & Hframe & _).
  assert (links_wf sample_links) as Hwf
    by exact (Hstate sample_sp "b" 4 [] _ _ Hrun
                (sample_artist "B" "b" []) [] 0).
  split_and!; [exact Hrun | exact Hwf | exact (proj1 (Hframe _) Hwf)].
Defined.

(** * Further properties of the script *)

(** ** The effects of a completed run, in order *)

Lemma call_events_expansion_events cs :
  cs ≫= call_events = (queried <$> cs) ≫= expansion_events.
Proof.
  induction cs as [|c cs IH]; [done|].
  rewrite fmap_cons, !bind_cons, IH. reflexivity.
Qed.

Lemma n_sleeps_app l1 l2 : n_sleeps (l1 ++ l2) = n_sleeps l1 + n_sleeps l2.
Proof. apply sum_list_with_app. Qed.

Lemma n_artist_calls_app l1 l2 :
  n_artist_calls (l1 ++ l2) = n_artist_calls l1 + n_artist_calls l2.
Proof. apply sum_list_with_app. Qed.

Lemma n_related_calls_app l1 l2 :
  n_related_calls (l1 ++ l2) = n_related_calls l1 + n_related_calls l2.
Proof. apply sum_list_with_app. Qed.

Lemma n_artist_calls_for_app q l1 l2 :
  n_artist_calls_for q (l1 ++ l2) =
  n_artist_calls_for q l1 + n_artist_calls_for q l2.
Proof. apply sum_list_with_app. Qed.

Lemma count_expansion_events qs :
  n_sleeps (qs ≫= expansion_events) = length qs ∧
  n_artist_calls (qs ≫= expansion_events) = length qs ∧
  n_related_calls (qs ≫= expansion_events) = length qs.
Proof.
  induction qs as [|q qs (IH1 & IH2 & IH3)]; [done|].
  rewrite bind_cons, n_sleeps_app, n_artist_calls_app, n_related_calls_app.
  rewrite IH1, IH2, IH3. done.
Qed.

Lemma count_node_events ids :
  n_sleeps (ids ≫= node_events) = length ids ∧
  n_artist_calls (ids ≫= node_events) = length ids ∧
  n_related_calls (ids ≫= node_events) = 0.
Proof.
  induction ids as [|id ids (IH1 & IH2 & IH3)]; [done|].
  rewrite bind_cons, n_sleeps_app, n_artist_calls_app, n_related_calls_app.
  rewrite IH1, IH2, IH3. done.
Qed.

Lemma length_omap_node_of sp ids :
  Forall (λ id, is_Some (node_of sp id)) ids →
  length (omap (node_of sp) ids) = length ids.
Proof.
  intros Hall. by rewrite <-(length_fmap n_id), n_id_omap_node_of.
Qed.

(** X1. A completed run has exactly these effects, in this order: the two
    calls for the seed, without a pause; for each of four expanded ids the
    artist call, the related-artists call, then a pause; the export of
    the edges; for each id of the node table a pause, then the artist
    call; the export of the nodes.  So with [n] rows in the node table
    the run pauses [4 + n] times, calls [sp.artist] [5 + n] times and
    [sp.artist_related_artists] 5 times. *)
Theorem completed_run_effects
    (vc : count_order) (so : set_order) (sp : spotify) (df : dataset)
    log links points log' :
  main vc so sp df log = (inr (links, points), log') →
  ∃ top qs ids sheet_links sheet_points evs,
    topArtist vc df log = (inr top, log) ∧
    length qs = 4 ∧
    column points "id" = CStr <$> ids ∧
    length ids = nrows points ∧
    log' = log ++ evs ∧
    evs = [CallArtist top; CallRelated top] ++
          (qs ≫= expansion_events) ++
          [ToExcel "links.xlsx" sheet_links] ++
          (ids ≫= node_events) ++
          [ToExcel "points.xlsx" sheet_points] ∧
    n_sleeps evs = 4 + nrows points ∧
    n_artist_calls evs = 5 + nrows points ∧
    n_related_calls evs = 5.
Proof.
  intros (d & log1 & Hedge & Hnode)%main_inr.
  apply edge_stage_inr in Hedge
    as (c0 & cs & Htop & _ & Hlen & _ & -> & -> & ->).
  apply node_stage_inr in Hnode as (Hall & -> & ->).
  set (ids := all_artist_ids so (links_of ((c0 :: cs) ≫= call_edges))) in *.
  assert (length ids =
          nrows (points_columns (points_of (omap (node_of sp) ids)))) as Hrows
    by (by rewrite nrows_points_of, length_omap_node_of).
  destruct (count_expansion_events (queried <$> cs)) as (Hs1 & Ha1 & Hr1).
  destruct (count_node_events ids) as (Hs2 & Ha2 & Hr2).
  rewrite length_fmap, Hlen in Hs1, Ha1, Hr1.
  exists (queried c0), (queried <$> cs), ids. eexists _, _, _.
  split_and!.
  - done.
  - by rewrite length_fmap.
  - change (CStr <$> (n_id <$> omap (node_of sp) ids) = CStr <$> ids).
    by rewrite n_id_omap_node_of.
  - done.
  - rewrite call_events_expansion_events, <-!(assoc_L (++)). reflexivity.
  - reflexivity.
  - rewrite <-Hrows, !n_sleeps_app, Hs1, Hs2.
    unfold n_sleeps. simpl. lia.
  - rewrite <-Hrows, !n_artist_calls_app, Ha1, Ha2.
    unfold n_artist_calls. simpl. lia.
  - rewrite !n_related_calls_app, Hr1, Hr2.
    unfold n_related_calls. simpl. lia.
Qed.

Lemma completed_run_effects_witness :
  ∃ links points log',
    main insertion_order forward_order sample_sp sample_df [] =
      (inr (links, points), log') ∧
    n_sleeps log' = 4 + nrows points ∧
    n_artist_calls log' = 5 + nrows points ∧
    n_related_calls log' = 5.
Proof.
  eexists _, _, _.
  assert (main insertion_order forward_order sample_sp sample_df [] =
          (inr _, _)) as Hrun by (vm_compute; reflexivity).
  split; [exact Hrun|].
  destruct (completed_run_effects insertion_order forward_order sample_sp
              sample_df [] _ _ _ Hrun)
    as (top & qs & ids & sl & sp' & evs & _ & _ & _ & _ & Hlog & _
        & Hs & Ha & Hr).
  rewrite Hlog. simpl. split_and!; [exact Hs | exact Ha | exact Hr].
Defined.

(** ** Failed runs *)


Section EdgeFailures.
Context (sp : spotify).





End EdgeFailures.





(** ** Runs that complete *)

Section Completion.
Context (sp : spotify).
Hypothesis artist_known : ∀ id, ∃ a, sp_artist sp id = Some a ∧ art_images a ≠ [].
Hypothesis related_known : ∀ id, ∃ ra, sp_related sp id = Some ra ∧ ra ≠ [].




End Completion.



(** ** Which ids are expanded *)

Lemma expansions_queries sp es i cs :
  expansions sp es i cs →
  queried <$> cs =
  take (length cs) (drop i (e_target_id <$> (es ++ (cs ≫= call_edges)))).
Proof.
  revert es i. induction cs as [|c cs IH]; intros es i Hcs; [done|].
  destruct Hcs as (Hq & _ & Hcs).
  rewrite fmap_cons, bind_cons. cbn [length].
  rewrite (drop_S _ (queried c) i).
  2:{ rewrite fmap_app. by apply lookup_app_l_Some. }
  rewrite firstn_cons. f_equal.
  rewrite (IH _ _ Hcs). by rewrite <-(assoc_L (++)).
Qed.

Lemma collect_links_queries sp top log d log' :
  collect_links sp top log = (inr d, log') →
  ∃ c0 cs,
    queried c0 = top ∧ answered sp c0 ∧ length cs = 4 ∧
    d = links_of ((c0 :: cs) ≫= call_edges) ∧
    log' = log ++ seed_events c0 ++ (cs ≫= call_events) ∧
    queried <$> cs = take 4 (target_id d) ∧
    4 ≤ length (target_id d).
Proof.
  intros (c0 & cs & Hq & Hc0 & Hlen & Hcs & -> & ->)%collect_links_inr.
  exists c0, cs.
  pose proof (expansions_queries sp _ _ _ Hcs) as Hqs.
  rewrite drop_0, Hlen in Hqs.
  assert (length (queried <$> cs) = 4) as Hlen4 by by rewrite length_fmap.
  rewrite Hqs, length_take in Hlen4.
  split_and!; try done.
  change (target_id (links_of ((c0 :: cs) ≫= call_edges)))
    with (e_target_id <$> (call_edges c0 ++ (cs ≫= call_edges))).
  lia.
Qed.

(** X5. In an edge stage that succeeds, the four ids expanded are, in
    order, the first four target ids of the edge table it builds, which
    therefore has at least four rows.  When the seed has at least four
    related artists, these are exactly the first four related artists of
    the seed: the table then holds the seed's relations and those of its
    four closest relations, two generations. *)
Theorem expanded_ids_are_first_targets
    (sp : spotify) (top : string) log d log' :
  collect_links sp top log = (inr d, log') →
  ∃ evs,
    log' = log ++ evs ∧
    related_queries evs = top :: take 4 (target_id d) ∧
    4 ≤ length (target_id d) ∧
    (∀ ra, sp_related sp top = Some ra → 4 ≤ length ra →
           take 4 (target_id d) = art_id <$> take 4 ra).
Proof.
  intros (c0 & cs & Hq & [_ Hra0] & Hlen & -> & -> & Hqs & Hlen4)
    %collect_links_queries.
  eexists. split_and!.
  - reflexivity.
  - rewrite related_queries_app, related_queries_call_events, Hqs.
    simpl. by rewrite Hq.
  - done.
  - intros ra Hra Hlenra. rewrite Hq, Hra in Hra0. injection Hra0 as Heq.
    change (target_id (links_of ((c0 :: cs) ≫= call_edges)))
      with (e_target_id <$> (call_edges c0 ++ (cs ≫= call_edges))).
    unfold call_edges at 1. rewrite <-Heq, fmap_app.
    rewrite take_app_le by (by rewrite !length_fmap).
    rewrite <-list_fmap_compose, fmap_take. reflexivity.
Qed.

Lemma expanded_ids_are_first_targets_witness :
  collect_links sample_sp "b" [] = (inr sample_links, sample_links_log) ∧
  ∃ evs,
    sample_links_log = [] ++ evs ∧
    related_queries evs = "b" :: take 4 (target_id sample_links) ∧
    4 ≤ length (target_id sample_links) ∧
    (∀ ra, sp_related sample_sp "b" = Some ra → 4 ≤ length ra →
           take 4 (target_id sample_links) = art_id <$> take 4 ra).
Proof.
  assert (collect_links sample_sp "b" [] = (inr sample_links, sample_links_log))
    as Hrun by (vm_compute; reflexivity).
  split; [exact Hrun|].
  exact (expanded_ids_are_first_targets sample_sp "b" [] _ _ Hrun).
Defined.

(** ** Sizes of the tables, repeated fetches *)

Lemma edge_stage_collect_links vc sp df log d links log1 :
  edge_stage vc sp df log = (inr (d, links), log1) →
  ∃ c0 cs,
    answered sp c0 ∧ length cs = 4 ∧
    d = links_of ((c0 :: cs) ≫= call_edges) ∧
    links = links_columns d ∧
    log1 = log ++ seed_events c0 ++ (cs ≫= call_events) ++
           [ToExcel "links.xlsx"
              (links_header :: (edge_cells <$> ((c0 :: cs) ≫= call_edges)))] ∧
    queried <$> cs = take 4 (target_id d) ∧
    4 ≤ length (target_id d).
Proof.
  intros (c0 & cs & _ & Hc0 & Hlen & Hcs & -> & -> & ->)%edge_stage_inr.
  assert (collect_links sp (queried c0) log =
          (inr (links_of ((c0 :: cs) ≫= call_edges)),
           log ++ seed_events c0 ++ (cs ≫= call_events))) as Hlinks
    by (apply collect_links_inr; by exists c0, cs).
  apply collect_links_queries in Hlinks
    as (c0' & cs' & _ & _ & _ & _ & _ & _ & Hlen4).
  pose proof (expansions_queries sp _ _ _ Hcs) as Hqs.
  rewrite drop_0, Hlen in Hqs.
  exists c0, cs. by split_and!.
Qed.

Lemma source_id_of_calls cs x :
  x ∈ source_id (links_of (cs ≫= call_edges)) →
  x ∈ (λ c, art_id (got_artist c)) <$> cs.
Proof.
  simpl. intros (e & -> & (c & He & Hc)%list_elem_of_bind)%list_elem_of_fmap.
  unfold call_edges in He. apply list_elem_of_fmap in He as (artist & -> & _).
  apply list_elem_of_fmap. by exists c.
Qed.

Lemma n_artist_calls_for_in q l :
  CallArtist q ∈ l → 1 ≤ n_artist_calls_for q l.
Proof.
  intros Hin. unfold n_artist_calls_for.
  pose proof (sum_list_with_in (CallArtist q)
    (λ e, match e with
          | CallArtist id => if decide (id = q) then 1 else 0
          | _ => 0
          end) l Hin) as Hle.
  simpl in Hle. by rewrite decide_True in Hle.
Qed.

(** X6. A completed run exports an edge table of at least four rows and a
    node table of at least one row; the node table has at most five rows
    more than the edge table (the five artists queried, and one per
    related artist at most). *)
Theorem exported_table_sizes
    (vc : count_order) (so : set_order) (sp : spotify) (df : dataset)
    log links points log' :
  main vc so sp df log = (inr (links, points), log') →
  4 ≤ nrows links ∧
  1 ≤ nrows points ∧
  nrows points ≤ 5 + nrows links.
Proof.
  intros (d & log1 & Hedge & Hnode)%main_inr.
  apply edge_stage_collect_links in Hedge
    as (c0 & cs & _ & Hlen & -> & -> & _ & _ & Hlen4).
  apply node_stage_inr in Hnode as (Hall & -> & _).
  set (es := (c0 :: cs) ≫= call_edges) in *.
  set (ids := all_artist_ids so (links_of es)) in *.
  rewrite nrows_links_of, nrows_points_of, (length_omap_node_of sp ids Hall).
  assert (length (target_id (links_of es)) = length es) as Htgt
    by (simpl; by rewrite length_fmap).
  split_and!.
  - lia.
  - destruct (target_id (links_of es)) as [|x tgt] eqn:Heq; [simpl in *; lia|].
    assert (x ∈ ids) as Hx.
    { apply all_artist_ids_elem. right. rewrite Heq. left. }
    destruct ids; [by apply not_elem_of_nil in Hx | simpl; lia].
  - assert (ids ⊆+ ((λ c, art_id (got_artist c)) <$> (c0 :: cs))
                   ++ target_id (links_of es)) as Hsub.
    { apply NoDup_submseteq; [apply all_artist_ids_NoDup|].
      intros x [Hsrc|Htg]%all_artist_ids_elem; apply elem_of_app.
      - left. by apply source_id_of_calls.
      - by right. }
    apply submseteq_length in Hsub.
    rewrite length_app, length_fmap, Htgt in Hsub. simpl in Hsub. lia.
Qed.

Lemma exported_table_sizes_witness :
  ∃ links points log',
    main insertion_order forward_order sample_sp sample_df [] =
      (inr (links, points), log') ∧
    4 ≤ nrows links ∧ 1 ≤ nrows points ∧ nrows points ≤ 5 + nrows links.
Proof.
  eexists _, _, _.
  assert (main insertion_order forward_order sample_sp sample_df [] =
          (inr _, _)) as Hrun by (vm_compute; reflexivity).
  split; [exact Hrun|].
  exact (exported_table_sizes insertion_order forward_order sample_sp
           sample_df [] _ _ _ Hrun).
Defined.

(** X7. The script keeps no cache of artist objects: in a completed run
    each of the four expanded ids is fetched with [sp.artist] at least
    twice, once when it is expanded and once more in the node loop. *)
Theorem expanded_ids_are_fetched_again
    (vc : count_order) (so : set_order) (sp : spotify) (df : dataset)
    log links points log' :
  main vc so sp df log = (inr (links, points), log') →
  ∃ top qs evs,
    log' = log ++ evs ∧
    related_queries evs = top :: qs ∧
    length qs = 4 ∧
    ∀ q, q ∈ qs → 2 ≤ n_artist_calls_for q evs.
Proof.
  intros (d & log1 & Hedge & Hnode)%main_inr.
  apply edge_stage_collect_links in Hedge
    as (c0 & cs & _ & Hlen & -> & -> & -> & Hqs & _).
  apply node_stage_inr in Hnode as (_ & _ & ->).
  set (es := (c0 :: cs) ≫= call_edges) in *.
  set (ids := all_artist_ids so (links_of es)) in *.
  exists (queried c0), (queried <$> cs). eexists. split_and!.
  - rewrite <-!(assoc_L (++)). reflexivity.
  - rewrite !related_queries_app, related_queries_call_events,
      related_queries_node_events. simpl. by rewrite app_nil_r.
  - by rewrite length_fmap.
  - intros q Hq.
    assert (CallArtist q ∈ cs ≫= call_events) as Hexp.
    { apply list_elem_of_fmap in Hq as (c & -> & Hc).
      apply list_elem_of_bind. exists c. split; [left|done]. }
    assert (CallArtist q ∈ ids ≫= node_events) as Hnode.
    { apply list_elem_of_bind. exists q. split; [right; left|].
      apply all_artist_ids_elem. right.
      rewrite Hqs in Hq. by apply subseteq_take in Hq. }
    apply n_artist_calls_for_in in Hexp, Hnode.
    rewrite !n_artist_calls_for_app. lia.
Qed.

Lemma expanded_ids_are_fetched_again_witness :
  ∃ links points log',
    main insertion_order forward_order sample_sp sample_df [] =
      (inr (links, points), log') ∧
    ∃ top qs evs,
      log' = [] ++ evs ∧
      related_queries evs = top :: qs ∧
      length qs = 4 ∧
      ∀ q, q ∈ qs → 2 ≤ n_artist_calls_for q evs.
Proof.
  eexists _, _, _.
  assert (main insertion_order forward_order sample_sp sample_df [] =
          (inr _, _)) as Hrun by (vm_compute; reflexivity).
  split; [exact Hrun|].
  exact (expanded_ids_are_fetched_again insertion_order forward_order sample_sp
           sample_df [] _ _ _ Hrun).
Defined.

(** ** The tally counts every record once *)








(** ** A refused call *)

Lemma expand_refused_artist sp i d log q :
  target_id d !! i = Some q →
  sp_artist sp q = None →
  expand sp i d log = (inl (SpotifyException q), log ++ [CallArtist q]).
Proof.
  intros Hq Ha. unfold expand, bind, target_id_at. rewrite Hq.
  unfold ret at 1. rewrite artist_call_run. by rewrite Ha.
Qed.

Lemma expand_refused_related sp i d log q :
  target_id d !! i = Some q →
  is_Some (sp_artist sp q) →
  sp_related sp q = None →
  expand sp i d log =
    (inl (SpotifyException q), log ++ [CallArtist q; CallRelated q]).
Proof.
  intros Hq [a Ha] Hra. unfold expand, bind, target_id_at. rewrite Hq.
  unfold ret at 1. rewrite artist_call_run, Ha. cbv beta iota.
  unfold ret at 1. rewrite related_call_run, Hra.
  by rewrite <-(assoc_L (++)).
Qed.

Lemma main_links_fail vc so sp df log top e log' :
  topArtist vc df log = (inr top, log) →
  collect_links sp top log = (inl e, log') →
  main vc so sp df log = (inl e, log').
Proof.
  intros Htop Hlinks. unfold main.
  rewrite (bind_run_inr _ _ _ _ _ Htop).
  by rewrite (bind_run_inl _ _ _ _ _ Hlinks).
Qed.

(** X9. A call the service refuses ends the run on the spot.  When
    iteration [i] of the expansion loop starts and the id [q] at index
    [i] is refused by [sp.artist], the run fails with the exception of
    that call: related artists are not asked for [q], there is no pause,
    and nothing is exported.  When [sp.artist] answers and
    [sp.artist_related_artists] refuses [q], the run fails right after
    that second call. *)
Theorem refused_call_stops_the_run
    (vc : count_order) (so : set_order) (sp : spotify) (df : dataset)
    log top i d logi q :
  topArtist vc df log = (inr top, log) →
  i < 4 →
  links_before sp top i log = (inr d, logi) →
  target_id d !! i = Some q →
  (sp_artist sp q = None →
   main vc so sp df log =
     (inl (SpotifyException q), logi ++ [CallArtist q])) ∧
  (is_Some (sp_artist sp q) → sp_related sp q = None →
   main vc so sp df log =
     (inl (SpotifyException q), logi ++ [CallArtist q; CallRelated q])) ∧
  exports (drop (length log) logi) = [].
Proof.
  intros Htop Hi Hbefore Hq. split_and!.
  - intros Ha. apply (main_links_fail vc so sp df log top _ _ Htop).
    rewrite collect_links_before.
    eapply links_before_stops; [exact Hi | exact Hbefore |].
    by apply expand_refused_artist.
  - intros Ha Hra. apply (main_links_fail vc so sp df log top _ _ Htop).
    rewrite collect_links_before.
    eapply links_before_stops; [exact Hi | exact Hbefore |].
    by apply expand_refused_related.
  - apply links_before_inr in Hbefore as (c0 & cs & _ & _ & _ & _ & _ & ->).
    by rewrite drop_app_length, exports_app, exports_call_events.
Qed.

Lemma refused_call_stops_the_run_witness :
  topArtist insertion_order sample_df [] = (inr "b", []) ∧
  1 < 4 ∧
  (∃ d logi,
     links_before refusing_sp "b" 1 [] = (inr d, logi) ∧
     target_id d !! 1 = Some "y" ∧
     sp_artist refusing_sp "y" = None ∧
     main insertion_order forward_order refusing_sp sample_df [] =
       (inl (SpotifyException "y"), logi ++ [CallArtist "y"])).
Proof.
  assert (topArtist insertion_order sample_df [] = (inr "b", [])) as Htop
    by (vm_compute; reflexivity).
  assert (1 < 4) as Hi by lia.
  split_and!; [exact Htop | exact Hi |].
  eexists _, _.
  assert (links_before refusing_sp "b" 1 [] = (inr _, _)) as Hbefore
    by (vm_compute; reflexivity).
  split; [exact Hbefore|].
  match type of Hbefore with
  | _ = (inr ?d, _) =>
      assert (target_id d !! 1 = Some "y") as Hq by reflexivity
  end.
  assert (sp_artist refusing_sp "y" = None) as Ha by reflexivity.
  split_and!; [exact Hq | exact Ha |].
  exact (proj1 (refused_call_stops_the_run insertion_order forward_order
                  refusing_sp sample_df [] "b" 1 _ _ "y"
                  Htop Hi Hbefore Hq) Ha).
Defined.
